(** * Component-state storage and refresh orchestrator of dagster

    A shallow embedding of

    - [dagster/_core/storage/defs_state/blob_storage_state_storage.py]
      (class [BlobStorageStateStorage]) and
    - [dagster_dg_cli/cli/utils.py] (the [refresh-component-state] command
      with its helpers [_refresh_component] and
      [_refresh_components_with_display]),

    followed by the properties of the state store and of the orchestrator.

    Python code that raises is embedded in a state-and-exception monad: an
    exception ends the computation, and the effects made before it stay.

    Paths are those of a local POSIX file system, as [pathlib] forms them. *)

From Stdlib.Strings Require Import Byte.
From stdpp Require Import base option list strings gmap.

Set Default Proof Using "Type".
Set Warnings "-clear-no-such-hyp".

(** ** Exceptions *)

(** What a [raise] can throw. The type is named after the annotation
    [Optional[Exception]] of the statuses; it holds every exception object,
    also those whose class derives from [BaseException] only
    ([CancelledError], [KeyboardInterrupt], [SystemExit]). An exception of a
    class of a component's own is described by what the orchestrator can
    observe of it: whether the class derives from [Exception], and the truth
    value of the object (an exception is truthy unless its class defines
    [__bool__] or [__len__]). *)
Inductive Exception : Type :=
  | ValueError (msg : string)
  | FileNotFoundError
  | FileExistsError
  | NotADirectoryError
  | IsADirectoryError
  | DeserializationError (msg : string)
  | ComponentError (msg : string)
  | CancelledError
  | KeyboardInterrupt
  | SystemExit
  | CustomError (name : string) (derives_from_Exception : bool) (truth : bool).

#[global] Instance Exception_eq_dec : EqDecision Exception.
Proof. solve_decision. Defined.

(** [isinstance(e, Exception)] *)
Definition isinstance_Exception (e : Exception) : bool :=
  match e with
  | CancelledError | KeyboardInterrupt | SystemExit => false
  | CustomError _ derives_from_Exception _ => derives_from_Exception
  | _ => true
  end.

(** [bool(e)] *)
Definition exception_bool (e : Exception) : bool :=
  match e with
  | CustomError _ _ truth => truth
  | _ => true
  end.

(** ** The pointer record *)

(** Modelled from the spec: [DefsKeyStateInfo] and [DefsStateInfo] live in
    [defs_state_info.py], which is not among the sources. The pointer record
    is a mapping from component key to a small record holding the version
    (the optional metadata is left out). *)
Record DefsKeyStateInfo : Type := { version : string }.

Record DefsStateInfo : Type := { info_mapping : gmap string DefsKeyStateInfo }.

#[global] Instance DefsKeyStateInfo_eq_dec : EqDecision DefsKeyStateInfo.
Proof. solve_decision. Defined.

(** Modelled from the spec: [DefsStateInfo.add_version], the semantic merge of
    [set_latest_version]: start from the current record (or from the empty one
    when absent) and set or overwrite the entry of [key]. *)
Definition add_version (current_info : option DefsStateInfo) (key version : string)
  : DefsStateInfo :=
  let new_info := {| version := version |} in
  match current_info with
  | None => {| info_mapping := {[ key := new_info ]} |}
  | Some cur => {| info_mapping := <[ key := new_info ]> (info_mapping cur) |}
  end.

Definition get_version (info : DefsStateInfo) (key : string) : option string :=
  version <$> info_mapping info !! key.

(** Modelled from the spec: [serialize_value] and [deserialize_value] come from
    [dagster_shared.serdes], which is not among the sources. The encoding is
    opaque: a type of raw values, an encoder, and a decoder that raises on
    the values it cannot decode. *)
Class Serdes : Type := {
  Raw : Type;
  serialize_value : DefsStateInfo → Raw;
  deserialize_value : Raw → Exception + DefsStateInfo
}.

(** What is decoded is what was encoded. *)
Class SerdesRoundTrip (S : Serdes) : Prop :=
  serdes_round_trip : ∀ info, deserialize_value (serialize_value info) = inr info.

(** ** Paths and the file system behind [Path] and [UPath] *)

(** A path is absolute and given by the list of its parts below the root,
    the root being the empty list. *)
Abbreviation path := (list string).

(** [s.split(sep)] *)
Fixpoint str_split (sep : Ascii.ascii) (s : string) : list string :=
  match s with
  | EmptyString => [EmptyString]
  | String a s' =>
      if decide (a = sep) then EmptyString :: str_split sep s'
      else match str_split sep s' with
           | [] => [String a EmptyString]
           | x :: xs => String a x :: xs
           end
  end.

Definition slash : Ascii.ascii := Ascii.ascii_of_nat 47.

(** The parts [pathlib] makes of a string: it is cut at the slashes, and the
    empty pieces and the pieces [.] are dropped; a piece [..] is kept. *)
Definition parts (s : string) : list string :=
  filter (λ x, x ≠ "" ∧ x ≠ ".") (str_split slash s).

Definition is_absolute (s : string) : bool :=
  match s with
  | String a _ => bool_decide (a = slash)
  | EmptyString => false
  end.

(** [p / s]: the parts of [s] are appended; an absolute [s] replaces [p]. *)
Definition joinpath (p : path) (s : string) : path :=
  if is_absolute s then parts s else p ++ parts s.

(** A string that is one part of a path as it stands: not empty, without a
    slash, and neither [.] nor [..]. *)
Definition plain (s : string) : Prop :=
  s ≠ "" ∧ s ≠ "." ∧ s ≠ ".." ∧ slash ∉ String.list_ascii_of_string s.

Abbreviation bytes := (list byte).

Inductive node : Type :=
  | Dir
  | File (content : bytes).

Definition parent (p : path) : path := removelast p.

(** ** Refresh statuses and what the command prints *)

Inductive Status : Type :=
  | Updating
  | Success
  | Error.

#[global] Instance Status_eq_dec : EqDecision Status.
Proof. solve_decision. Defined.

Record ComponentStateRefreshStatus : Type := {
  status : Status;
  error : option Exception
}.

(** The dict of statuses, keyed by state key. *)
Abbreviation statuses_t := (list (string * ComponentStateRefreshStatus)).

(** What [click.echo] writes, one item per call or group of calls: a
    rendering of the status view, the header and the lines of the error
    report, and the closing line. *)
Inductive echoed : Type :=
  | Display (initial : bool) (lines : list (string * Status))
  | ErrorsHeader
  | ErrorLine (key : string) (e : Exception)
  | Done.

Section Storage.
Context {S : Serdes}.

(** The world the code acts on: the file system reached through [Path] and
    [UPath] objects, the key-value table of the run storage, and the
    terminal. The file system holds directories and files under paths; it
    has no symbolic links, and the parts of a path are taken as names: a
    part [..] is not resolved. *)
Record World : Type := {
  fs : gmap path node;
  kvs : gmap string Raw;
  stdout : list echoed
}.

Definition set_fs (f : gmap path node → gmap path node) (w : World) : World :=
  {| fs := f (fs w); kvs := kvs w; stdout := stdout w |}.

Definition set_kvs (f : gmap string Raw → gmap string Raw) (w : World) : World :=
  {| fs := fs w; kvs := f (kvs w); stdout := stdout w |}.

Definition set_stdout (f : list echoed → list echoed) (w : World) : World :=
  {| fs := fs w; kvs := kvs w; stdout := f (stdout w) |}.

(** *** The monad of Python computations *)

Definition M (A : Type) : Type := World → (Exception + A) * World.

Definition ret {A} (a : A) : M A := λ w, (inr a, w).

Definition raise {A} (e : Exception) : M A := λ w, (inl e, w).

Definition bind {A B} (m : M A) (k : A → M B) : M B :=
  λ w, match m w with
       | (inr a, w') => k a w'
       | (inl e, w') => (inl e, w')
       end.

(** [try: m except Exception as e: h e]: an exception that is no instance
    of [Exception] passes through. *)
Definition try_except {A} (m : M A) (h : Exception → M A) : M A :=
  λ w, match m w with
       | (inr a, w') => (inr a, w')
       | (inl e, w') => if isinstance_Exception e then h e w' else (inl e, w')
       end.

(** [for x in l: body x] *)
Fixpoint for_each {A} (l : list A) (body : A → M unit) : M unit :=
  match l with
  | [] => ret tt
  | x :: l' => bind (body x) (λ _, for_each l' body)
  end.

Definition click_echo (x : echoed) : M unit :=
  λ w, (inr tt, set_stdout (λ out, out ++ [x]) w).

End Storage.

Declare Scope py_scope.
Delimit Scope py_scope with py.
Notation "x <- m ;; k" := (bind m (λ x, k))
  (at level 100, m at next level, right associativity) : py_scope.
Notation "m ;; k" := (bind m (λ _, k))
  (at level 100, right associativity) : py_scope.
Open Scope py_scope.

Section Facade.
Context {S : Serdes}.

(** *** Path operations *)

(** What the file system holds at a path, the root included. *)
Definition node_at (f : gmap path node) (p : path) : option node := f !! p.

(** [p.exists()] *)
Definition path_exists (p : path) : M bool :=
  λ w, (inr (bool_decide (is_Some (node_at (fs w) p))), w).

(** [p.read_bytes()] *)
Definition read_bytes (p : path) : M bytes :=
  λ w, match node_at (fs w) p with
       | Some (File b) => (inr b, w)
       | Some Dir => (inl IsADirectoryError, w)
       | None => (inl FileNotFoundError, w)
       end.

(** [p.write_bytes(b)]: creates or overwrites the file; the parent has to be
    a directory and [p] itself must not be one. *)
Definition write_bytes (p : path) (b : bytes) : M unit :=
  λ w, match node_at (fs w) (parent p) with
       | Some Dir =>
           match node_at (fs w) p with
           | Some Dir => (inl IsADirectoryError, w)
           | _ => (inr tt, set_fs (<[ p := File b ]>) w)
           end
       | Some (File _) => (inl NotADirectoryError, w)
       | None => (inl FileNotFoundError, w)
       end.

(** [p.mkdir(parents=True, exist_ok=True)], from the root downwards: [done]
    is the prefix already visited, [rest] the segments still to create. *)
Fixpoint mkdir_from (done rest : path) : M unit :=
  match rest with
  | [] => ret tt
  | s :: rest' =>
      let q := done ++ [s] in
      λ w, match fs w !! q with
           | Some Dir => mkdir_from q rest' w
           | Some (File _) =>
               (inl (match rest' with
                     | [] => FileExistsError
                     | _ => NotADirectoryError
                     end), w)
           | None => mkdir_from q rest' (set_fs (<[ q := Dir ]>) w)
           end
  end.

Definition mkdir (p : path) : M unit := mkdir_from [] p.

(** A computation that leaves the key-value table and the terminal alone. *)
Definition fs_only {A} (m : M A) : Prop :=
  ∀ w, kvs (m w).2 = kvs w ∧ stdout (m w).2 = stdout w.

(** *** The key-value table of the run storage *)

(** Modelled from the spec: [run_storage.get_cursor_values] and
    [set_cursor_values] are not among the sources. The table is a generic
    key-value store: a read returns the entries found among the asked keys,
    a write sets every given entry. *)
Definition get_cursor_values (keys : gset string) : M (gmap string Raw) :=
  λ w, (inr (filter (λ kv, kv.1 ∈ keys) (kvs w)), w).

Definition set_cursor_values (pairs : gmap string Raw) : M unit :=
  λ w, (inr tt, set_kvs (λ m, pairs ∪ m) w).

(** *** [BlobStorageStateStorage] *)

Record BlobStorageStateStorage : Type := { base_dir : path }.

Definition INFO_KEY : string := "__latest_defs_state_info__".

(** [__init__]: the base directory is created when absent. *)
Definition init (base : path) : M BlobStorageStateStorage :=
  mkdir base ;; ret {| base_dir := base |}.

(** [self._base_dir / key / version] *)
Definition _get_state_path (self : BlobStorageStateStorage) (key version : string)
  : path :=
  joinpath (joinpath (base_dir self) key) version.

Definition download_state_to_path (self : BlobStorageStateStorage)
    (key version : string) (path : path) : M unit :=
  let remote_path := _get_state_path self key version in
  found <- path_exists remote_path ;;
  if negb found then
    raise (ValueError ("No state found for key " +:+ key +:+ " and version " +:+ version))
  else
    b <- read_bytes remote_path ;;
    write_bytes path b.

Definition get_latest_defs_state_info : M (option DefsStateInfo) :=
  values <- get_cursor_values {[ INFO_KEY ]} ;;
  let raw_value := values !! INFO_KEY in
  match raw_value with
  | None => ret None
  | Some raw =>
      match deserialize_value raw with
      | inl e => raise e
      | inr info => ret (Some info)
      end
  end.

(** Modelled from the spec: [DefsStateStorage.get_updated_defs_state_info] is
    in [base.py], which is not among the sources: read the current record
    (or none when absent) and set the entry of [key]. *)
Definition get_updated_defs_state_info (key version : string) : M DefsStateInfo :=
  current_info <- get_latest_defs_state_info ;;
  ret (add_version current_info key version).

Definition set_latest_version (key version : string) : M unit :=
  info <- get_updated_defs_state_info key version ;;
  set_cursor_values {[ INFO_KEY := serialize_value info ]}.

Definition upload_state_from_path (self : BlobStorageStateStorage)
    (key version : string) (path : path) : M unit :=
  let remote_path := _get_state_path self key version in
  mkdir (parent remote_path) ;;
  b <- read_bytes path ;;
  write_bytes remote_path b ;;
  set_latest_version key version.

(** The blob-write phase of an upload: what [upload_state_from_path] does
    before it turns to the pointer record. *)
Definition write_blob (self : BlobStorageStateStorage)
    (key version : string) (path : path) : M unit :=
  let remote_path := _get_state_path self key version in
  mkdir (parent remote_path) ;;
  b <- read_bytes path ;;
  write_bytes remote_path b.

End Facade.

(** ** The refresh orchestrator *)

(** A Python [dict] with string keys keeps the order in which its keys were
    first inserted; assigning to a key that is present replaces the value
    where it stands. *)
Fixpoint dict_set {V} (k : string) (v : V) (d : list (string * V)) : list (string * V) :=
  match d with
  | [] => [(k, v)]
  | (k', v') :: d' =>
      if decide (k = k') then (k, v) :: d' else (k', v') :: dict_set k v d'
  end.

Fixpoint dict_get {V} (k : string) (d : list (string * V)) : option V :=
  match d with
  | [] => None
  | (k', v') :: d' => if decide (k = k') then Some v' else dict_get k d'
  end.

Section Orchestrator.
Context {S : Serdes}.

(** Modelled from the spec: [StateBackedComponent] is in
    [state_backed_component.py], which is not among the sources. A
    refreshable component exposes a stable key and a refresh operation that
    produces new state (here: anything it does to the file system, possibly
    raising) and persists it through the facade under a version of its
    choice. *)
Record StateBackedComponent : Type := {
  get_state_key : string;
  new_version : string;
  state_path : path;
  write_state_to_path : gmap path node → (Exception + unit) * gmap path node
}.

Definition lift_fs (f : gmap path node → (Exception + unit) * gmap path node) : M unit :=
  λ w, let '(r, f') := f (fs w) in (r, set_fs (λ _, f') w).

Definition refresh_state (storage : BlobStorageStateStorage)
    (component : StateBackedComponent) : M unit :=
  lift_fs (write_state_to_path component) ;;
  upload_state_from_path storage (get_state_key component)
    (new_version component) (state_path component).

Definition _update_display (statuses : statuses_t) (initial : bool) : M unit :=
  click_echo (Display initial ((λ kv, (kv.1, status kv.2)) <$> statuses)).

Definition _refresh_component (storage : BlobStorageStateStorage)
    (component : StateBackedComponent) (statuses : statuses_t) : M statuses_t :=
  let key := get_state_key component in
  try_except
    (refresh_state storage component ;;
     let statuses := dict_set key {| status := Success; error := None |} statuses in
     _update_display statuses false ;;
     ret statuses)
    (λ e,
     let statuses := dict_set key {| status := Error; error := Some e |} statuses in
     _update_display statuses false ;;
     ret statuses).

(** [asyncio.gather] over the coroutines [body c]. [order] lists the
    coroutines that come to their end, returning or raising, in the order in
    which they do; the dict they share is threaded from one to the next. A
    coroutine that raises changes nothing in the dict and does not stop the
    others ([gather] cancels none of them); the caller of [gather] gets the
    first exception raised. *)
Fixpoint gather {A St} (body : A → St → M St) (order : list A) (st : St) : M St :=
  match order with
  | [] => ret st
  | c :: order' =>
      λ w, match body c st w with
           | (inr st', w') => gather body order' st' w'
           | (inl e, w') => (inl e, (gather body order' st w').2)
           end
  end.

(** [order] is the order in which the coroutines made from [components] come
    to their end. When none of them raises, [gather] waits for all: [order]
    is a permutation of [components]. When one raises, the caller gets the
    exception as soon as the loop comes back to it, and [asyncio.run] then
    cancels the coroutines that have not come to their end: [order] holds
    those that have. *)
Definition _refresh_components_with_display (storage : BlobStorageStateStorage)
    (components order : list StateBackedComponent) (statuses : statuses_t)
  : M statuses_t :=
  gather (_refresh_component storage) order statuses.

(** The dict comprehension that initialises the statuses. *)
Definition initial_statuses (to_refresh : list StateBackedComponent) : statuses_t :=
  foldl (λ d component,
           dict_set (get_state_key component) {| status := Updating; error := None |} d)
        [] to_refresh.

(** The loop that collects the errors: an entry counts when its status is
    [Error] and [status.error] is truthy, which [None] is not, and an
    exception is when its [bool] is. *)
Definition collect_errors (statuses : statuses_t) : list (string * Exception) :=
  omap (λ kv, match status kv.2, error kv.2 with
              | Error, Some e => if exception_bool e then Some (kv.1, e) else None
              | _, _ => None
              end) statuses.

Definition refresh_component_state (storage : BlobStorageStateStorage)
    (to_refresh order : list StateBackedComponent) : M unit :=
  let statuses := initial_statuses to_refresh in
  _update_display statuses true ;;
  statuses <- _refresh_components_with_display storage to_refresh order statuses ;;
  let errors := collect_errors statuses in
  match errors with
  | (_, first) :: _ =>
      click_echo ErrorsHeader ;;
      for_each errors (λ ke, click_echo (ErrorLine ke.1 ke.2)) ;;
      raise first
  | [] => click_echo Done
  end.

(** The exit code of the command: non-zero when it raised. *)
Definition exit_code (r : Exception + unit) : nat :=
  match r with
  | inr _ => 0
  | inl _ => 1
  end.

End Orchestrator.

(** ** Histories of calls on one store *)

(** The calls a client makes on the facade. A call that raises leaves the
    effects it had, and the client goes on with the next one. *)
Inductive op : Type :=
  | Upload (key version : string) (src : path)
  | Download (key version : string) (dst : path)
  | SetLatest (key version : string).

Section History.
Context {S : Serdes}.

Definition run_op (storage : BlobStorageStateStorage) (o : op) : M unit :=
  match o with
  | Upload key version src => upload_state_from_path storage key version src
  | Download key version dst => download_state_to_path storage key version dst
  | SetLatest key version => set_latest_version key version
  end.

Fixpoint run_history (storage : BlobStorageStateStorage) (h : list op) (w : World)
  : World :=
  match h with
  | [] => w
  | o :: h' => run_history storage h' (run_op storage o w).2
  end.

(** The (key, version) pairs a history uploads. *)
Definition uploaded (h : list op) : list (string * string) :=
  omap (λ o, match o with
             | Upload key version _ => Some (key, version)
             | _ => None
             end) h.

(** A call that is no download to the path [p]. *)
Definition download_avoids (p : path) (o : op) : Prop :=
  match o with
  | Download _ _ dst => dst ≠ p
  | _ => True
  end.

(** A call that is no upload under a key or a version that is not plain. *)
Definition plain_upload (o : op) : Prop :=
  match o with
  | Upload key version _ => plain key ∧ plain version
  | _ => True
  end.

(** A store that holds no blob yet: there is nothing below its directory. *)
Definition empty_store (storage : BlobStorageStateStorage) (w : World) : Prop :=
  ∀ p, p ≠ [] → fs w !! (base_dir storage ++ p) = None.

(** ** Interleaved calls of [set_latest_version] *)

(** [set_latest_version] reaches the key-value table twice: the read inside
    [get_updated_defs_state_info], then [set_cursor_values]. A call is
    followed through these two steps. *)
Inductive slv_pc : Type :=
  | SlvStart
  | SlvHasRead (info : DefsStateInfo)
  | SlvDone
  | SlvRaised (e : Exception).

Record slv_call : Type := {
  call_key : string;
  call_version : string;
  call_pc : slv_pc
}.

Definition slv_at (c : slv_call) (pc : slv_pc) : slv_call :=
  {| call_key := call_key c; call_version := call_version c; call_pc := pc |}.

Definition slv_step (c : slv_call) (w : World) : slv_call * World :=
  match call_pc c with
  | SlvStart =>
      match get_updated_defs_state_info (call_key c) (call_version c) w with
      | (inr info, w') => (slv_at c (SlvHasRead info), w')
      | (inl e, w') => (slv_at c (SlvRaised e), w')
      end
  | SlvHasRead info =>
      match set_cursor_values {[ INFO_KEY := serialize_value info ]} w with
      | (inr _, w') => (slv_at c SlvDone, w')
      | (inl e, w') => (slv_at c (SlvRaised e), w')
      end
  | SlvDone | SlvRaised _ => (c, w)
  end.

(** A schedule names, step by step, the call that moves next. *)
Fixpoint run_schedule (sched : list nat) (calls : list slv_call) (w : World)
  : list slv_call * World :=
  match sched with
  | [] => (calls, w)
  | i :: sched' =>
      match calls !! i with
      | Some c =>
          let '(c', w') := slv_step c w in
          run_schedule sched' (<[ i := c' ]> calls) w'
      | None => run_schedule sched' calls w
      end
  end.

(** A call that has not started. *)
Definition slv_start (kv : string * string) : slv_call :=
  {| call_key := kv.1; call_version := kv.2; call_pc := SlvStart |}.

(** The schedules of one event loop. The coroutines of a batch run in one
    loop, which takes another coroutine only where the running one awaits;
    [set_latest_version] is a plain method with no [await] in it, so the
    two steps of a call are taken back to back. [order] names the calls in
    the order of their turns. *)
Definition loop_schedule (order : list nat) : list nat :=
  order ≫= λ i, [i; i].

End History.

(** ** A concrete encoding *)

(** The record as the list of its (key, version) pairs; a list that names a
    key twice does not decode. *)
Definition list_serialize (info : DefsStateInfo) : list (string * string) :=
  prod_map id version <$> map_to_list (info_mapping info).

Definition list_deserialize (raw : list (string * string)) : Exception + DefsStateInfo :=
  if decide (NoDup raw.*1) then
    inr {| info_mapping := list_to_map (prod_map id Build_DefsKeyStateInfo <$> raw) |}
  else inl (DeserializationError "duplicate key").

Definition list_serdes : Serdes :=
  {| Raw := list (string * string);
     serialize_value := list_serialize;
     deserialize_value := list_deserialize |}.

(** ** Notions used to state the properties *)

(** The entries of a pointer record as it is read: none when absent. *)
Definition entries (r : option DefsStateInfo) : gmap string DefsKeyStateInfo :=
  default ∅ (info_mapping <$> r).

Section Outcomes.
Context {S : Serdes}.

(** The pointer record read in [w] maps the key [k] to the version [v]. *)
Definition points_to (w : World) (k v : string) : Prop :=
  ∃ info, (get_latest_defs_state_info w).1 = inr (Some info) ∧
          info_mapping info !! k = Some {| version := v |}.

(** Two worlds with the same store: they differ by the terminal at most. *)
Definition same_store (w1 w2 : World) : Prop :=
  fs w1 = fs w2 ∧ kvs w1 = kvs w2.

(** A computation that neither reads nor writes the terminal. *)
Definition store_only {A} (m : M A) : Prop :=
  ∀ w1 w2, same_store w1 w2 →
           (m w1).1 = (m w2).1 ∧ same_store (m w1).2 (m w2).2.

(** What each component's [refresh_state] does at its turn, the components
    taken in [order]: its state key with the result of the call, and the
    world after the last turn. *)
Fixpoint refresh_outcomes (storage : BlobStorageStateStorage)
    (order : list StateBackedComponent) (w : World)
  : list (string * (Exception + unit)) * World :=
  match order with
  | [] => ([], w)
  | c :: order' =>
      let '(r, w1) := refresh_state storage c w in
      let '(tr, w2) := refresh_outcomes storage order' w1 in
      ((get_state_key c, r) :: tr, w2)
  end.

(** The exception of an outcome that [_refresh_component] lets through: one
    that is no instance of [Exception]. *)
Definition escapes (r : Exception + unit) : option Exception :=
  match r with
  | inl e => if isinstance_Exception e then None else Some e
  | inr _ => None
  end.

(** The outcomes that are recorded in the dict. *)
Definition caught (tr : list (string * (Exception + unit)))
  : list (string * (Exception + unit)) :=
  filter (λ kr, escapes kr.2 = None) tr.

(** The first exception that is let through, in the order of the turns. *)
Definition first_escape (tr : list (string * (Exception + unit))) : option Exception :=
  head (omap (λ kr, escapes kr.2) tr).

(** The status an outcome is recorded as. *)
Definition status_of (r : Exception + unit) : ComponentStateRefreshStatus :=
  match r with
  | inr _ => {| status := Success; error := None |}
  | inl e => {| status := Error; error := Some e |}
  end.

Definition record_outcome (statuses : statuses_t) (ko : string * (Exception + unit))
  : statuses_t :=
  dict_set ko.1 (status_of ko.2) statuses.

(** The last outcome reported under the key [k]. *)
Fixpoint last_outcome (k : string) (tr : list (string * (Exception + unit)))
  : option (Exception + unit) :=
  match tr with
  | [] => None
  | (k', r) :: tr' =>
      match last_outcome k tr' with
      | Some r' => Some r'
      | None => if decide (k = k') then Some r else None
      end
  end.

End Outcomes.

(** ** Worlds and components for the examples *)

Definition ex_storage : BlobStorageStateStorage := {| base_dir := ["base"] |}.

(** The root, the base directory and one local file. *)
Definition ex_world : @World list_serdes :=
  {| fs := {[ [] := Dir; ["base"] := Dir; ["src"] := File [x01; x02] ]};
     kvs := ∅;
     stdout := [] |}.

(** The same, after (k, v1) has been uploaded from the local file. *)
Definition ex_world_uploaded : @World list_serdes :=
  (upload_state_from_path ex_storage "k" "v1" ["src"] ex_world).2.

(** A world whose pointer record does not decode. *)
Definition ex_world_corrupt : @World list_serdes :=
  {| fs := {[ [] := Dir; ["base"] := Dir ]};
     kvs := {[ INFO_KEY := [("k", "v1"); ("k", "v2")] ]};
     stdout := [] |}.

(** A component that writes its state and uploads it. *)
Definition ex_component (key version : string) : StateBackedComponent :=
  {| get_state_key := key;
     new_version := version;
     state_path := ["tmp"; key];
     write_state_to_path :=
       λ f, (inr tt, <[ ["tmp"; key] := File [x2a] ]> (<[ ["tmp"] := Dir ]> f)) |}.

(** A component whose own refresh logic raises. *)
Definition ex_failing_component (key : string) : StateBackedComponent :=
  {| get_state_key := key;
     new_version := "never";
     state_path := ["tmp"; key];
     write_state_to_path := λ f, (inl (ComponentError "fail_write"), f) |}.

Definition ex_history : list op :=
  [ Upload "k" "v1" ["src"]; Download "k" "v1" ["dst"]; SetLatest "k" "v3" ].

(** Three components, the second of which fails, and an order of turns. *)
Definition ex_batch : list StateBackedComponent :=
  [ ex_component "a" "1"; ex_failing_component "b"; ex_component "c" "3" ].

Definition ex_batch_order : list StateBackedComponent :=
  [ ex_component "c" "3"; ex_component "a" "1"; ex_failing_component "b" ].

(** ** Notions for the store as a whole *)

Section StoreNotions.
Context {S : Serdes}.

(** Every entry of the pointer record names a version whose blob is
    stored. *)
Definition stores_what_it_publishes (storage : BlobStorageStateStorage) (w : World)
  : Prop :=
  ∀ info key e,
    (get_latest_defs_state_info w).1 = inr (Some info) →
    info_mapping info !! key = Some e →
    ∃ b, fs w !! _get_state_path storage key (version e) = Some (File b).

(** The calls that go through the blob store: uploads, and downloads to
    paths outside the directory of the store. *)
Definition upload_or_download (storage : BlobStorageStateStorage) (o : op) : Prop :=
  match o with
  | Upload _ _ _ => True
  | Download _ _ dst => ¬ base_dir storage `prefix_of` dst
  | SetLatest _ _ => False
  end.

End StoreNotions.

(** ** The schema file of [generate-component-schema] *)

(** What [_generate_component_schema] reads of the [DgContext]: the root
    path, and the JSON text of the schema of all components
    ([json.dumps(all_components_schema_from_dg_context(dg_context), indent=2)],
    both functions being outside the sources). *)
Record DgContext : Type := {
  root_path : path;
  components_schema_json : bytes
}.

Definition DEFAULT_SCHEMA_FOLDER_NAME : string := ".dg".

Section Schema.
Context {S : Serdes}.

(** [p.mkdir(exist_ok=True)]: a directory that is there is left alone; the
    parent has to be a directory. *)
Definition mkdir_exist_ok (p : path) : M unit :=
  λ w, match node_at (fs w) p with
       | Some Dir => (inr tt, w)
       | Some (File _) => (inl FileExistsError, w)
       | None =>
           match node_at (fs w) (parent p) with
           | Some Dir => (inr tt, set_fs (<[ p := Dir ]>) w)
           | Some (File _) => (inl NotADirectoryError, w)
           | None => (inl FileNotFoundError, w)
           end
       end.

(** [p.write_text(text)], the text taken as its bytes. *)
Definition write_text (p : path) (text : bytes) : M unit := write_bytes p text.

(** A [Path] object is truthy, so [not schema_path] holds for [None] only. *)
Definition _generate_component_schema (dg_context : DgContext)
    (output_path : option path) : M path :=
  schema_path <-
    match output_path with
    | Some schema_path => ret schema_path
    | None =>
        let schema_folder := root_path dg_context ++ [DEFAULT_SCHEMA_FOLDER_NAME] in
        mkdir_exist_ok schema_folder ;;
        ret (schema_folder ++ ["schema.json"])
    end ;;
  write_text schema_path (components_schema_json dg_context) ;;
  ret schema_path.

(** The command: [Path(output_path) if output_path else None], an empty
    string counting as no path. [to_path] stands for the constructor
    [Path]. *)
Definition generate_component_schema (to_path : string → path)
    (dg_context : DgContext) (output_path : option string) : M unit :=
  _generate_component_schema dg_context
    (match output_path with
     | Some (String a rest) => Some (to_path (String a rest))
     | Some EmptyString | None => None
     end) ;;
  ret tt.

End Schema.

(** ** [inspect-component] *)

Module EntrySnap.
(** The fields the command reads of a registry entry; [Schema] is the type
    of the JSON schemas. *)
Record t (Schema : Type) : Type := {
  description : option string;
  scaffolder_schema : option Schema;
  component_schema : option Schema
}.
Arguments description {Schema} _.
Arguments scaffolder_schema {Schema} _.
Arguments component_schema {Schema} _.
End EntrySnap.

Definition nl : string := String (Ascii.ascii_of_nat 10) EmptyString.

(** How a command ends when it does not return: through [exit_with_error],
    which prints its message and leaves with status 1, or with an exception
    that nothing catches. *)
Inductive failure : Type :=
  | exit_with_error (msg : string)
  | uncaught (e : Exception).

Section Inspect.
(** The registry, its keys and the schemas are outside the sources: a
    registry is taken as what [get] returns for a key, [has] telling whether
    there is an entry; a schema is truthy when it is a non-empty mapping.
    [EnvRegistryKey.from_typename] raises on a string that is no type
    name. *)
Context {Key Schema : Type}.
Variable from_typename : string → Exception + Key.
Variable generate_missing_registry_object_error_message : string → string.
Variable schema_truthy : Schema → bool.
Variable json_dumps_indent_4 : Schema → string.

Definition _serialize_json_schema (schema : Schema) : string :=
  json_dumps_indent_4 schema.

(** Truthiness of an optional string and of an optional schema. *)
Definition str_truthy (s : option string) : bool :=
  match s with
  | Some (String _ _) => true
  | _ => false
  end.

Definition opt_schema_truthy (s : option Schema) : bool :=
  match s with
  | Some schema => schema_truthy schema
  | None => false
  end.

(** [sum([description, scaffold_params_schema, component_schema])] *)
Definition flag_sum (description scaffold_params_schema component_schema : bool) : nat :=
  Nat.b2n description + Nat.b2n scaffold_params_schema + Nat.b2n component_schema.

(** The command, as the lines it echoes, or the way it fails
    ([exit_with_error] does not return). *)
Definition inspect_component_type_command
    (registry : Key → option (EntrySnap.t Schema))
    (component_type : string)
    (description scaffold_params_schema component_schema : bool)
  : failure + list string :=
  match from_typename component_type with
  | inl e => inl (uncaught e)
  | inr component_key =>
  match registry component_key with
  | None =>
      inl (exit_with_error
             (generate_missing_registry_object_error_message component_type))
  | Some entry_snap =>
      if decide (1 < flag_sum description scaffold_params_schema component_schema) then
        inl (exit_with_error
               "Only one of --description, --scaffold-params-schema, and --component-schema can be specified.")
      else if description then
        inr [ match EntrySnap.description entry_snap with
              | Some (String a d) => String a d
              | _ => "No description available."
              end ]
      else if scaffold_params_schema then
        inr [ match EntrySnap.scaffolder_schema entry_snap with
              | Some schema =>
                  if schema_truthy schema then _serialize_json_schema schema
                  else "No scaffold params schema defined."
              | None => "No scaffold params schema defined."
              end ]
      else if component_schema then
        inr [ match EntrySnap.component_schema entry_snap with
              | Some schema =>
                  if schema_truthy schema then _serialize_json_schema schema
                  else "No component schema defined."
              | None => "No component schema defined."
              end ]
      else
        inr ([component_type]
             ++ match EntrySnap.description entry_snap with
                | Some (String a d) => [nl +:+ "Description:" +:+ nl; String a d]
                | _ => []
                end
             ++ match EntrySnap.scaffolder_schema entry_snap with
                | Some schema =>
                    if schema_truthy schema then
                      [nl +:+ "Scaffold params schema:" +:+ nl;
                       _serialize_json_schema schema]
                    else []
                | None => []
                end
             ++ match EntrySnap.component_schema entry_snap with
                | Some schema =>
                    if schema_truthy schema then
                      [nl +:+ "Component schema:" +:+ nl;
                       _serialize_json_schema schema]
                    else []
                | None => []
                end)
  end
  end.

End Inspect.

(** ** Run events: the filters of [run.py] and the table of [formatters.py] *)

(** An event as the functions read it: the four fields they look up, each a
    string, or [None] when the key is missing or its value is null (what the
    GraphQL API returns), and whatever else the dict holds. *)
Record Event : Type := {
  timestamp : option string;
  eventType : option string;
  stepKey : option string;
  message : option string;
  other_fields : list (string * string)
}.

(** Truthiness of a string, and [x or ""] for an optional string. *)
Definition str_bool (s : string) : bool :=
  match s with
  | EmptyString => false
  | String _ _ => true
  end.

Definition or_empty (s : option string) : string := default "" s.

(** [s[:n]] and [f"{s:<n}"]: a string is read as the sequence of its
    characters. *)
Fixpoint str_take (n : nat) (s : string) : string :=
  match n, s with
  | 0, _ | _, EmptyString => EmptyString
  | Datatypes.S n', String a s' => String a (str_take n' s')
  end.

Fixpoint str_repeat (a : Ascii.ascii) (n : nat) : string :=
  match n with
  | 0 => EmptyString
  | Datatypes.S n' => String a (str_repeat a n')
  end.

Definition space : Ascii.ascii := Ascii.ascii_of_nat 32.

Definition str_ljust (n : nat) (s : string) : string :=
  s +:+ str_repeat space (n - String.length s).

Section RunEvents.
(** The methods of [str] the filters call, and the serialisers, are
    Python's: [upper], [lower], [strip], [s.split(",")], [needle in s],
    [str(n)] and [json.dumps]. *)
Variable str_upper str_lower str_strip : string → string.
Variable str_split_comma : string → list string.
Variable str_in : string → string → bool.
Variable str_of_nat : nat → string.
Variable json_dumps_events : string → list Event → string.

(** The test of the loop of [_filter_events_by_type]. *)
Definition type_matches (types : list string) (event : Event) : bool :=
  match eventType event with
  | Some event_type_val =>
      str_bool event_type_val && bool_decide (str_upper event_type_val ∈ types)
  | None => false
  end.

Definition _filter_events_by_type (events : list Event) (event_type : option string)
  : list Event :=
  match event_type with
  | None | Some EmptyString => events
  | Some event_type =>
      let types := (λ t, str_upper (str_strip t)) <$> str_split_comma event_type in
      foldl (λ filtered event,
               if type_matches types event then filtered ++ [event] else filtered)
            [] events
  end.

(** The test of the loop of [_filter_events_by_step]. *)
Definition step_matches (step_key : string) (event : Event) : bool :=
  let event_step := or_empty (stepKey event) in
  str_bool event_step && str_in (str_lower step_key) (str_lower event_step).

Definition _filter_events_by_step (events : list Event) (step_key : option string)
  : list Event :=
  match step_key with
  | None | Some EmptyString => events
  | Some step_key =>
      foldl (λ filtered event,
               if step_matches step_key event then filtered ++ [event] else filtered)
            [] events
  end.

(** The filtering of [events_run_command]: by type, then by step. *)
Definition filter_events (events : list Event) (event_type step_key : option string)
  : list Event :=
  let events :=
    if str_bool (or_empty event_type) then _filter_events_by_type events event_type
    else events in
  if str_bool (or_empty step_key) then _filter_events_by_step events step_key
  else events.

(** One row of the table. *)
Definition event_row (event : Event) : string :=
  let timestamp := str_take 19 (or_empty (timestamp event)) in
  let event_type := str_take 20 (or_empty (eventType event)) in
  let step_key := str_take 30 (or_empty (stepKey event)) in
  let message := str_take 50 (or_empty (message event)) in
  str_ljust 20 timestamp +:+ " " +:+ str_ljust 20 event_type +:+ " "
    +:+ str_ljust 30 step_key +:+ " " +:+ str_ljust 50 message.

Definition dash : Ascii.ascii := Ascii.ascii_of_nat 45.

(** The list [lines] of the human-readable branch. *)
Definition run_events_lines (events : list Event) (run_id : string) : list string :=
  [ "Events for run " +:+ run_id +:+ ":";
    "";
    str_ljust 20 "TIMESTAMP" +:+ " " +:+ str_ljust 20 "TYPE" +:+ " "
      +:+ str_ljust 30 "STEP_KEY" +:+ " " +:+ str_ljust 50 (str_take 50 "MESSAGE");
    str_repeat dash 20 +:+ " " +:+ str_repeat dash 20 +:+ " "
      +:+ str_repeat dash 30 +:+ " " +:+ str_repeat dash 50 ]
  ++ (event_row <$> events)
  ++ [ ""; "Total events: " +:+ str_of_nat (length events) ].

Definition format_run_events (events : list Event) (as_json : bool) (run_id : string)
  : string :=
  if as_json then json_dumps_events run_id events
  else
    match events with
    | [] => "No events found for run " +:+ run_id
    | _ => String.concat nl (run_events_lines events run_id)
    end.

End RunEvents.

(** ** Deployments: the limit of [list_deployments_via_graphql] *)

Module Deployments.

(** An item of [fullDeployments], and the [Deployment] made of it;
    [DeploymentType] is the type of the members of the enumeration, which is
    outside the sources. *)
Record raw : Type := {
  deploymentId : Z;
  deploymentName : string;
  deploymentType : string
}.

Record t (DeploymentType : Type) : Type := {
  id : Z;
  name : string;
  type : DeploymentType
}.
Arguments id {DeploymentType} _.
Arguments name {DeploymentType} _.
Arguments type {DeploymentType} _.

Record DeploymentList (DeploymentType : Type) : Type := {
  items : list (t DeploymentType);
  total : nat
}.
Arguments items {DeploymentType} _.
Arguments total {DeploymentType} _.

End Deployments.

(** [l[:limit]]: a negative limit counts from the end. *)
Definition slice_to {A} (limit : Z) (l : list A) : list A :=
  if (limit <? 0)%Z then take (Z.to_nat (Z.of_nat (length l) + limit)) l
  else take (Z.to_nat limit) l.

Section ListDeployments.
Context {DeploymentType : Type}.
(** [DeploymentType[name]]: the member of that name, a [KeyError] when there
    is none. *)
Variable DeploymentType_member : string → option DeploymentType.

(** The list comprehension: it stops at the first item whose type has no
    member, with the [KeyError] of that name. *)
Fixpoint to_deployments (deployments_data : list Deployments.raw)
  : string + list (Deployments.t DeploymentType) :=
  match deployments_data with
  | [] => inr []
  | d :: rest =>
      match DeploymentType_member (Deployments.deploymentType d) with
      | None => inl (Deployments.deploymentType d)
      | Some ty =>
          match to_deployments rest with
          | inl e => inl e
          | inr ds =>
              inr ({| Deployments.id := Deployments.deploymentId d;
                      Deployments.name := Deployments.deploymentName d;
                      Deployments.type := ty |} :: ds)
          end
      end
  end.

(** The function after the query: [deployments_data] is
    [result.get("fullDeployments", [])]; [if limit:] holds for a limit that
    is given and not zero. The result is the [KeyError] ([inl]) or the
    list. *)
Definition list_deployments_via_graphql (deployments_data : list Deployments.raw)
    (limit : option Z) : string + Deployments.DeploymentList DeploymentType :=
  match to_deployments deployments_data with
  | inl e => inl e
  | inr deployments =>
      let deployments :=
        match limit with
        | Some l => if decide (l = 0%Z) then deployments else slice_to l deployments
        | None => deployments
        end in
      inr {| Deployments.items := deployments;
             Deployments.total := length deployments |}
  end.

End ListDeployments.

(** ** More worlds and components for the examples *)

(** A local file, and nothing at or below the base directory. *)
Definition ex_world_bare : @World list_serdes :=
  {| fs := {[ [] := Dir; ["src"] := File [x01; x02] ]}; kvs := ∅; stdout := [] |}.

(** The base directory, a local file, and a pointer record that does not
    decode. *)
Definition ex_world_corrupt_src : @World list_serdes :=
  {| fs := {[ [] := Dir; ["base"] := Dir; ["src"] := File [x01; x02] ]};
     kvs := {[ INFO_KEY := [("k", "v1"); ("k", "v2")] ]};
     stdout := [] |}.

Definition ex_upload_history : list op :=
  [ Upload "k" "v1" ["src"]; Download "k" "v1" ["dst"]; Upload "k" "v2" ["missing"] ].

(** A component whose refresh raises the given message. *)
Definition ex_failing_with (key msg : string) : StateBackedComponent :=
  {| get_state_key := key;
     new_version := "never";
     state_path := ["tmp"; key];
     write_state_to_path := λ f, (inl (ComponentError msg), f) |}.

(** Two good components, and an order of turns. *)
Definition ex_good_batch : list StateBackedComponent :=
  [ ex_component "a" "1"; ex_component "c" "3" ].

Definition ex_good_order : list StateBackedComponent :=
  [ ex_component "c" "3"; ex_component "a" "1" ].

(** A component whose refresh raises an exception of a class of its own: one
    that derives from [Exception] and whose instances are falsy. *)
Definition ex_quiet_component (key : string) : StateBackedComponent :=
  {| get_state_key := key;
     new_version := "never";
     state_path := ["tmp"; key];
     write_state_to_path := λ f, (inl (CustomError "Quiet" true false), f) |}.

(** Two failing components after one that fails with a falsy exception; the
    last of the list takes the first turn. *)
Definition ex_two_failures : list StateBackedComponent :=
  [ ex_quiet_component "a"; ex_failing_with "b" "b failed";
    ex_failing_with "c" "c failed" ].

Definition ex_two_failures_order : list StateBackedComponent :=
  [ ex_failing_with "c" "c failed"; ex_quiet_component "a";
    ex_failing_with "b" "b failed" ].

Definition ex_quiet_batch : list StateBackedComponent :=
  [ ex_component "a" "1"; ex_quiet_component "b" ].

(** A component whose refresh is cancelled, between two that succeed. *)
Definition ex_cancelled_component (key : string) : StateBackedComponent :=
  {| get_state_key := key;
     new_version := "never";
     state_path := ["tmp"; key];
     write_state_to_path := λ f, (inl CancelledError, f) |}.

Definition ex_cancelled_batch : list StateBackedComponent :=
  [ ex_component "a" "1"; ex_cancelled_component "b"; ex_component "c" "3" ].

(** A component that is refreshed, one whose refresh raises an error, and
    one whose refresh is cancelled. *)
Definition ex_interrupted_batch : list StateBackedComponent :=
  [ ex_component "a" "1"; ex_failing_component "b"; ex_cancelled_component "c" ].

(** An upload under a key with a slash in it, and a download directed into
    the store. *)
Definition ex_alias_history : list op := [ Upload "a/b" "c" ["src"] ].

Definition ex_inward_history : list op :=
  [ Upload "k" "v1" ["src"]; Download "k" "v1" ["base"; "k"; "v2"] ].

(** A project root with nothing in it, and a registry with one entry. *)
Definition ex_context : DgContext :=
  {| root_path := ["proj"]; components_schema_json := [x7b; x7d] |}.

Definition ex_world_project : @World list_serdes :=
  {| fs := {[ [] := Dir; ["proj"] := Dir ]}; kvs := ∅; stdout := [] |}.

Definition ex_registry (key : string) : option (EntrySnap.t (list string)) :=
  if decide (key = "foo.Bar") then
    Some {| EntrySnap.description := Some "A bar.";
            EntrySnap.scaffolder_schema := Some [];
            EntrySnap.component_schema := Some ["type"] |}
  else None.

(** A type name has a dot in it. *)
Definition ex_from_typename (s : string) : Exception + string :=
  if decide (length (str_split (Ascii.ascii_of_nat 46) s) = 2) then inr s
  else inl (ValueError ("Invalid type name: " +:+ s)).

Definition ex_inspect :=
  inspect_component_type_command (Schema := list string)
    ex_from_typename (λ s, "No registry object " +:+ s)
    (λ schema, bool_decide (schema ≠ [])) (String.concat ",") ex_registry.

(** An enumeration of two members, and three deployments. *)
Inductive ex_DeploymentType : Type := PRODUCTION | BRANCH.

Definition ex_member (name : string) : option ex_DeploymentType :=
  if decide (name = "PRODUCTION") then Some PRODUCTION
  else if decide (name = "BRANCH") then Some BRANCH
  else None.

Definition ex_deployments : list Deployments.raw :=
  [ {| Deployments.deploymentId := 1; Deployments.deploymentName := "prod";
       Deployments.deploymentType := "PRODUCTION" |};
    {| Deployments.deploymentId := 2; Deployments.deploymentName := "feature-a";
       Deployments.deploymentType := "BRANCH" |};
    {| Deployments.deploymentId := 3; Deployments.deploymentName := "feature-b";
       Deployments.deploymentType := "BRANCH" |} ].

Definition ex_deployments_converted : list (Deployments.t ex_DeploymentType) :=
  [ {| Deployments.id := 1; Deployments.name := "prod";
       Deployments.type := PRODUCTION |};
    {| Deployments.id := 2; Deployments.name := "feature-a";
       Deployments.type := BRANCH |};
    {| Deployments.id := 3; Deployments.name := "feature-b";
       Deployments.type := BRANCH |} ].

(** * Properties *)

(** ** The monad and the path operations *)

Section FacadeLemmas.
Context {S : Serdes}.

Implicit Types (w : World) (p q : path) (b : bytes).

Lemma bind_inr {A B} (m : M A) (k : A → M B) w a w' :
  m w = (inr a, w') → bind m k w = k a w'.
Proof. unfold bind. by intros ->. Qed.

Lemma bind_inl {A B} (m : M A) (k : A → M B) w e w' :
  m w = (inl e, w') → bind m k w = (inl e, w').
Proof. unfold bind. by intros ->. Qed.

Lemma run_eq {A} (m : M A) w r : (m w).1 = r → m w = (r, (m w).2).
Proof. intros <-. by destruct (m w). Qed.

Lemma bind_assoc {A B C} (m : M A) (k : A → M B) (k' : B → M C) w :
  bind (bind m k) k' w = bind m (λ a, bind (k a) k') w.
Proof. unfold bind. destruct (m w) as [[e|a] w']; done. Qed.

Lemma fs_only_bind {A B} (m : M A) (k : A → M B) :
  fs_only m → (∀ a, fs_only (k a)) → fs_only (bind m k).
Proof.
  intros Hm Hk w. unfold bind. specialize (Hm w).
  destruct (m w) as [[e|a] w']; simpl in *; [done|].
  destruct (Hk a w') as [-> ->]. done.
Qed.

Lemma read_bytes_world p w : (read_bytes p w).2 = w.
Proof. unfold read_bytes. by destruct (node_at (fs w) p) as [[|?]|]. Qed.

Lemma fs_only_read_bytes p : fs_only (read_bytes p).
Proof. intros w. by rewrite read_bytes_world. Qed.

Lemma fs_only_write_bytes p b : fs_only (write_bytes p b).
Proof.
  intros w. unfold write_bytes.
  destruct (node_at (fs w) (parent p)) as [[|?]|]; [|done..].
  by destruct (node_at (fs w) p) as [[|?]|].
Qed.

Lemma fs_only_mkdir_from d r : fs_only (mkdir_from d r).
Proof.
  revert d. induction r as [|s r IH]; intros d w; [done|].
  simpl. destruct (fs w !! (d ++ [s])) as [[|?]|]; [apply IH|done|].
  destruct (IH (d ++ [s]) (set_fs (<[d ++ [s]:=Dir]>) w)) as [-> ->]. done.
Qed.

Lemma fs_only_write_blob storage key version src :
  fs_only (write_blob storage key version src).
Proof.
  unfold write_blob. apply fs_only_bind; [apply fs_only_mkdir_from|intros _].
  apply fs_only_bind; [apply fs_only_read_bytes|intros b].
  apply fs_only_write_bytes.
Qed.

(** [mkdir] only adds directories: what is there stays. *)
Lemma mkdir_from_preserves d r w p n :
  fs w !! p = Some n → fs (mkdir_from d r w).2 !! p = Some n.
Proof.
  revert d w. induction r as [|s r IH]; intros d w Hp; [done|].
  simpl. destruct (fs w !! (d ++ [s])) as [[|?]|] eqn:Hq; [by apply IH|done|].
  apply IH. simpl. rewrite lookup_insert_ne; [done|]. intros Heq.
  congruence.
Qed.

(** ... and a path that is absent afterwards was absent before. *)
Lemma mkdir_from_None d r w p :
  fs (mkdir_from d r w).2 !! p = None → fs w !! p = None.
Proof.
  intros H. destruct (fs w !! p) as [n|] eqn:Hp; [|done].
  by rewrite (mkdir_from_preserves d r w p n Hp) in H.
Qed.

(** The paths [mkdir_from d r] may create. *)
Lemma mkdir_from_new d r w p :
  fs w !! p = None → fs (mkdir_from d r w).2 !! p ≠ None →
  ∃ r1 r2, r = r1 ++ r2 ∧ r1 ≠ [] ∧ p = d ++ r1.
Proof.
  revert d w. induction r as [|s r IH]; intros d w Hp Hnew; [done|].
  simpl in Hnew. destruct (decide (p = d ++ [s])) as [->|Hne].
  { by exists [s], r. }
  assert (∃ r1 r2, r = r1 ++ r2 ∧ r1 ≠ [] ∧ p = (d ++ [s]) ++ r1) as (r1 & r2 & -> & ? & ->).
  { destruct (fs w !! (d ++ [s])) as [[|?]|] eqn:Hq.
    - by apply (IH _ w).
    - done.
    - apply (IH _ (set_fs (<[d ++ [s]:=Dir]>) w)); [|done].
      simpl. by rewrite lookup_insert_ne. }
  exists (s :: r1), r2. split_and!; [done|done|]. by rewrite <-app_assoc.
Qed.

(** After a [mkdir] that returned, every prefix on the way is a directory. *)
Lemma mkdir_from_dirs d r w w' r1 r2 :
  mkdir_from d r w = (inr tt, w') → r = r1 ++ r2 → r1 ≠ [] →
  fs w' !! (d ++ r1) = Some Dir.
Proof.
  revert d w r1. induction r as [|s r IH]; intros d w r1 Hrun Hr Hne.
  { by destruct r1. }
  destruct r1 as [|s' r1]; [done|]. simplify_eq/=.
  assert (∀ w0, fs w0 !! (d ++ [s']) = Some Dir →
                mkdir_from (d ++ [s']) (r1 ++ r2) w0 = (inr (), w') →
                fs w' !! (d ++ s' :: r1) = Some Dir) as Hgo.
  { intros w0 Hd Hrun0. destruct r1 as [|s'' r1].
    - replace w' with (mkdir_from (d ++ [s']) ([] ++ r2) w0).2 by by rewrite Hrun0.
      by apply mkdir_from_preserves.
    - replace (d ++ s' :: s'' :: r1) with ((d ++ [s']) ++ s'' :: r1)
        by by rewrite <-app_assoc.
      by eapply IH. }
  destruct (fs w !! (d ++ [s'])) as [[|?]|] eqn:Hq; [by eapply Hgo|done|].
  eapply Hgo; [|done]. simpl. by rewrite lookup_insert_eq.
Qed.

(** A [mkdir] over directories that are all there returns and changes
    nothing. *)
Lemma mkdir_from_present d r w :
  (∀ r1 r2, r = r1 ++ r2 → r1 ≠ [] → fs w !! (d ++ r1) = Some Dir) →
  mkdir_from d r w = (inr tt, w).
Proof.
  revert d. induction r as [|s r IH]; intros d Hall; [done|].
  simpl. rewrite (Hall [s] r); [|done..]. apply IH.
  intros r1 r2 -> Hne. rewrite <-app_assoc. by apply (Hall (s :: r1) r2).
Qed.

(** *** Paths *)

Lemma parent_snoc p s : parent (p ++ [s]) = p.
Proof. apply removelast_last. Qed.

(** A path other than the root is its parent and one part more. *)
Lemma parent_split p : p ≠ [] → ∃ s, p = parent p ++ [s].
Proof.
  intros Hne. destruct (exists_last Hne) as (q & s & ->).
  exists s. by rewrite parent_snoc.
Qed.

Lemma parent_length p : p ≠ [] → length p = Datatypes.S (length (parent p)).
Proof.
  intros [s Hs]%parent_split. rewrite Hs at 1. rewrite length_app. simpl. lia.
Qed.

(** The path of a file is not the path of the directory it lies in. *)
Lemma parent_ne (f : gmap path node) p :
  f !! parent p = Some Dir → f !! p ≠ Some Dir → parent p ≠ p.
Proof. intros Hpar Hp Heq. by rewrite Heq in Hpar. Qed.

Lemma str_split_no_sep sep s :
  sep ∉ String.list_ascii_of_string s → str_split sep s = [s].
Proof.
  induction s as [|a s IH]; simpl; [done|].
  intros [Hne Hnin]%not_elem_of_cons.
  rewrite decide_False by done. by rewrite IH.
Qed.

Lemma joinpath_plain p s : plain s → joinpath p s = p ++ [s].
Proof.
  intros (Hne & Hdot & _ & Hslash). unfold joinpath, parts.
  assert (is_absolute s = false) as ->.
  { destruct s as [|a s]; [done|]. simpl. apply bool_decide_eq_false.
    intros ->. apply Hslash. by left. }
  rewrite (str_split_no_sep _ _ Hslash).
  rewrite filter_cons, decide_True by done. done.
Qed.

(** For a key and a version that are plain, the state path is the base
    directory and two parts more. *)
Lemma state_path_plain storage key version :
  plain key → plain version →
  _get_state_path storage key version = base_dir storage ++ [key; version].
Proof.
  intros Hk Hv. unfold _get_state_path.
  rewrite (joinpath_plain _ _ Hk), (joinpath_plain _ _ Hv).
  by rewrite <-app_assoc.
Qed.

Lemma state_path_plain_inj storage key version key' version' :
  plain key → plain version → plain key' → plain version' →
  _get_state_path storage key version = _get_state_path storage key' version' →
  (key, version) = (key', version').
Proof.
  intros Hk Hv Hk' Hv'. rewrite !state_path_plain by done.
  intros H. by simplify_list_eq.
Qed.

End FacadeLemmas.

(** ** The facade *)

Section FacadeSpecs.
Context {S : Serdes}.

Implicit Types (w : World) (p q : path) (b : bytes).

Lemma bind_inr_inv {A B} (m : M A) (k : A → M B) w r w' :
  bind m k w = (inr r, w') → ∃ a wm, m w = (inr a, wm) ∧ k a wm = (inr r, w').
Proof.
  unfold bind. destruct (m w) as [[e|a] wm]; [done|]. intros H. by exists a, wm.
Qed.

Lemma cursor_get (k : string) (m : gmap string Raw) :
  filter (λ kv, kv.1 ∈ ({[ k ]} : gset string)) m !! k = m !! k.
Proof.
  destruct (m !! k) as [raw|] eqn:Hk.
  - apply map_lookup_filter_Some. split; [done|]. set_solver.
  - apply map_lookup_filter_None. by left.
Qed.

Lemma get_latest_unfold w :
  get_latest_defs_state_info w =
  (match kvs w !! INFO_KEY with
   | None => inr None
   | Some raw => match deserialize_value raw with
                 | inl e => inl e
                 | inr info => inr (Some info)
                 end
   end, w).
Proof.
  unfold get_latest_defs_state_info, get_cursor_values, bind.
  rewrite cursor_get. destruct (kvs w !! INFO_KEY) as [raw|]; [|done].
  by destruct (deserialize_value raw).
Qed.


Lemma get_latest_kvs w w' :
  kvs w = kvs w' →
  (get_latest_defs_state_info w).1 = (get_latest_defs_state_info w').1.
Proof. intros H. by rewrite !get_latest_unfold, H. Qed.

Lemma set_latest_version_unfold key version w :
  set_latest_version key version w =
  match (get_latest_defs_state_info w).1 with
  | inr cur =>
      (inr tt, set_kvs (<[ INFO_KEY := serialize_value (add_version cur key version) ]>) w)
  | inl e => (inl e, w)
  end.
Proof.
  unfold set_latest_version, get_updated_defs_state_info, set_cursor_values, bind, ret.
  rewrite get_latest_unfold. simpl.
  destruct (kvs w !! INFO_KEY) as [raw|]; simpl.
  - destruct (deserialize_value raw); simpl; [done|].
    unfold set_kvs. cbv beta. by rewrite <-insert_union_singleton_l.
  - unfold set_kvs. cbv beta. by rewrite <-insert_union_singleton_l.
Qed.

Lemma set_latest_version_fs key version w :
  fs (set_latest_version key version w).2 = fs w ∧
  stdout (set_latest_version key version w).2 = stdout w.
Proof.
  rewrite set_latest_version_unfold.
  by destruct ((get_latest_defs_state_info w).1).
Qed.

(** After a [set_latest_version] that returned, the record decodes to the
    merge of the prior record with the new entry. *)
Lemma set_latest_version_read `{!SerdesRoundTrip S} key version w w' :
  set_latest_version key version w = (inr tt, w') →
  ∃ cur, (get_latest_defs_state_info w).1 = inr cur ∧
         get_latest_defs_state_info w' = (inr (Some (add_version cur key version)), w').
Proof.
  rewrite set_latest_version_unfold.
  destruct ((get_latest_defs_state_info w).1) as [e|cur]; [done|].
  intros [= <-]. exists cur. split; [done|].
  rewrite get_latest_unfold. simpl. rewrite lookup_insert_eq.
  by rewrite serdes_round_trip.
Qed.

(** What a call that finds a record it can read does: the merge of the prior
    record with the new entry. *)
Lemma set_latest_version_merge `{!SerdesRoundTrip S} key version w prior :
  (get_latest_defs_state_info w).1 = inr prior →
  ∃ w' info,
    set_latest_version key version w = (inr tt, w') ∧
    get_latest_defs_state_info w' = (inr (Some info), w') ∧
    info_mapping info !! key = Some {| version := version |} ∧
    (∀ key', key' ≠ key →
             info_mapping info !! key' = entries prior !! key') ∧
    fs w' = fs w.
Proof.
  intros Hprior.
  pose proof (set_latest_version_unfold key version w) as Hset.
  rewrite Hprior in Hset.
  eexists _, (add_version prior key version). split; [exact Hset|].
  split.
  { rewrite get_latest_unfold. simpl. by rewrite lookup_insert_eq, serdes_round_trip. }
  unfold entries. destruct prior as [cur|]; simpl.
  - rewrite lookup_insert_eq. split; [done|]. split; [|done].
    intros key' Hne. by rewrite lookup_insert_ne.
  - rewrite lookup_singleton_eq. split; [done|]. split; [|done].
    intros key' Hne. by rewrite lookup_singleton_ne.
Qed.

Lemma upload_split storage key version src w :
  upload_state_from_path storage key version src w =
  bind (write_blob storage key version src) (λ _, set_latest_version key version) w.
Proof.
  unfold upload_state_from_path, write_blob, bind.
  destruct (mkdir _ w) as [[e|[]] wa]; [done|].
  destruct (read_bytes src wa) as [[e|b] wb]; [done|].
  by destruct (write_bytes _ b wb) as [[e|[]] wc].
Qed.

(** What an upload that returned went through. *)
Lemma upload_inr storage key version src w w1 :
  upload_state_from_path storage key version src w = (inr tt, w1) →
  let remote_path := _get_state_path storage key version in
  ∃ wa b,
    mkdir (parent remote_path) w = (inr tt, wa) ∧
    fs wa !! src = Some (File b) ∧
    fs wa !! parent remote_path = Some Dir ∧
    fs wa !! remote_path ≠ Some Dir ∧
    set_latest_version key version (set_fs (<[ remote_path := File b ]>) wa) = (inr tt, w1).
Proof.
  intros Hup remote_path. unfold upload_state_from_path in Hup.
  apply bind_inr_inv in Hup as ([] & wa & Hmk & Hup).
  apply bind_inr_inv in Hup as (b & wb & Hrd & Hup).
  apply bind_inr_inv in Hup as ([] & wc & Hwr & Hup).
  fold remote_path in Hmk, Hwr.
  exists wa, b. split; [done|].
  unfold read_bytes, node_at in Hrd.
  destruct (fs wa !! src) as [[|b']|] eqn:Hsrc; simplify_eq.
  split; [done|].
  unfold write_bytes, node_at in Hwr.
  destruct (fs wb !! parent remote_path) as [[|?]|]; [|done..].
  split; [done|].
  destruct (fs wb !! remote_path) as [[|?]|]; by simplify_eq.
Qed.

(** What a file is before a [mkdir], it is after it. *)
Lemma mkdir_keeps p w wa q n :
  mkdir p w = (inr tt, wa) → fs w !! q = Some n → fs wa !! q = Some n.
Proof.
  intros Hmk Hq. replace wa with (mkdir p w).2 by by rewrite Hmk.
  by apply mkdir_from_preserves.
Qed.

End FacadeSpecs.

Section FacadeTheorems.
Context {S : Serdes}.

Implicit Types (w : World) (p q : path) (b : bytes).

(** C7. [get_latest_defs_state_info] returns [None] exactly when the
    key-value table holds nothing under [INFO_KEY]; when a value is stored
    there and does not decode, the call raises the decoder's exception (so it
    returns neither [None] nor an empty record). Once [set_latest_version]
    has returned, the result is never [None] again. *)
Theorem get_latest_absent_or_corrupt w :
  ((get_latest_defs_state_info w).1 = inr None ↔ kvs w !! INFO_KEY = None) ∧
  (∀ raw e, kvs w !! INFO_KEY = Some raw → deserialize_value raw = inl e →
            get_latest_defs_state_info w = (inl e, w)) ∧
  (∀ key version w', set_latest_version key version w = (inr tt, w') →
                     (get_latest_defs_state_info w').1 ≠ inr None).
Proof.
  split_and!.
  - rewrite get_latest_unfold. simpl. split.
    + destruct (kvs w !! INFO_KEY) as [raw|]; [|done].
      by destruct (deserialize_value raw).
    + by intros ->.
  - intros raw e Hraw He. by rewrite get_latest_unfold, Hraw, He.
  - intros key version w'. rewrite set_latest_version_unfold.
    destruct ((get_latest_defs_state_info w).1) as [e|cur]; [done|].
    intros [= <-]. rewrite get_latest_unfold. simpl. rewrite lookup_insert_eq.
    by destruct (deserialize_value _).
Qed.

(** C3. A [set_latest_version key version] that runs on its own, from a
    pointer record that is absent or decodes, returns; the record then maps
    [key] to [version] and every other key to the entry it had before (to
    none when the record was absent). The file system is not touched. *)
Theorem set_latest_version_frame `{!SerdesRoundTrip S} key version w prior :
  (get_latest_defs_state_info w).1 = inr prior →
  ∃ w' info,
    set_latest_version key version w = (inr tt, w') ∧
    get_latest_defs_state_info w' = (inr (Some info), w') ∧
    info_mapping info !! key = Some {| version := version |} ∧
    (∀ key', key' ≠ key →
             info_mapping info !! key' = entries prior !! key') ∧
    fs w' = fs w.
Proof.
  intros Hprior.
  destruct (set_latest_version key version w) as [r w'] eqn:Hset.
  pose proof Hset as Hset'. rewrite set_latest_version_unfold, Hprior in Hset'.
  simplify_eq. eexists _, _. split; [done|].
  apply set_latest_version_read in Hset as (cur & Hcur & Hget).
  rewrite Hprior in Hcur. simplify_eq. split; [done|].
  destruct cur as [cur|]; simpl.
  - rewrite lookup_insert_eq. split; [done|]. split; [|done].
    intros key' Hne. by rewrite lookup_insert_ne.
  - rewrite lookup_singleton_eq. split; [done|]. split; [|done].
    intros key' Hne. by rewrite lookup_singleton_ne.
Qed.

(** C1 (amended). When the blob-write phase of [upload_state_from_path]
    raises, the upload raises the same exception in the same state, the
    continuation [set_latest_version] is not run, and the key-value table,
    hence the pointer record read afterwards, is what it was before the call:
    the record has an entry for [key] pointing at [version] only if it had
    one before. *)
Theorem failed_blob_write_keeps_pointer storage key version src w e w1 :
  write_blob storage key version src w = (inl e, w1) →
  upload_state_from_path storage key version src w = (inl e, w1) ∧
  kvs w1 = kvs w ∧
  (get_latest_defs_state_info w1).1 = (get_latest_defs_state_info w).1.
Proof.
  intros Hblob. rewrite upload_split. split; [by apply bind_inl|].
  destruct (fs_only_write_blob storage key version src w) as [Hkvs _].
  rewrite Hblob in Hkvs. split; [done|]. by apply get_latest_kvs.
Qed.

(** C5. When [src] holds the bytes [b] and the upload of [src] to (key,
    version) returns, a download of the same (key, version) to a destination
    that can be written (its parent is a directory, it is not one itself)
    returns, and the destination then holds exactly [b]. *)
Theorem upload_download_round_trip storage key version src dst b w w1 :
  node_at (fs w) src = Some (File b) →
  upload_state_from_path storage key version src w = (inr tt, w1) →
  node_at (fs w1) (parent dst) = Some Dir →
  node_at (fs w1) dst ≠ Some Dir →
  ∃ w2, download_state_to_path storage key version dst w1 = (inr tt, w2) ∧
        fs w2 !! dst = Some (File b).
Proof.
  intros Hsrc Hup Hparent Hdst.
  apply upload_inr in Hup as (wa & b' & Hmk & Hsrc' & _ & _ & Hset).
  assert (b' = b) as ->.
  { pose proof (mkdir_keeps _ _ _ _ _ Hmk Hsrc) as Hsrc''. congruence. }
  pose proof (set_latest_version_fs key version
                (set_fs (<[_get_state_path storage key version := File b]>) wa))
    as [Hfs _].
  rewrite Hset in Hfs. simpl in Hfs.
  assert (node_at (fs w1) (_get_state_path storage key version) = Some (File b))
    as Hnode.
  { unfold node_at. by rewrite Hfs, lookup_insert_eq. }
  assert (path_exists (_get_state_path storage key version) w1 = (inr true, w1))
    as Hex.
  { unfold path_exists. rewrite Hnode. by rewrite bool_decide_true by eauto. }
  assert (read_bytes (_get_state_path storage key version) w1 = (inr b, w1)) as Hrd.
  { unfold read_bytes. by rewrite Hnode. }
  unfold download_state_to_path.
  rewrite (bind_inr _ _ _ _ _ Hex). cbn [negb].
  rewrite (bind_inr _ _ _ _ _ Hrd).
  unfold write_bytes. rewrite Hparent.
  exists (set_fs (<[dst:=File b]>) w1). split.
  - by destruct (node_at (fs w1) dst) as [[|?]|].
  - simpl. by rewrite lookup_insert_eq.
Qed.

(** C8. When an upload of (key, version) has returned, the same upload made
    again returns as well, although the blob is there already; it leaves the
    world as it was, and the pointer record maps [key] to [version]. *)
Theorem upload_twice `{!SerdesRoundTrip S} storage key version src w w1 :
  upload_state_from_path storage key version src w = (inr tt, w1) →
  upload_state_from_path storage key version src w1 = (inr tt, w1) ∧
  ∃ info, get_latest_defs_state_info w1 = (inr (Some info), w1) ∧
          info_mapping info !! key = Some {| version := version |}.
Proof.
  intros Hup.
  apply upload_inr in Hup as (wa & b & Hmk & Hsrc & Hpar & Hnd & Hset).
  set (remote_path := _get_state_path storage key version) in *.
  assert (parent remote_path ≠ remote_path) as Hpne by by apply (parent_ne (fs wa)).
  assert (remote_path ≠ []) as Hne0 by (intros H0; apply Hpne; by rewrite H0).
  pose proof (set_latest_version_fs key version
                (set_fs (<[remote_path := File b]>) wa)) as [Hfs Hout].
  rewrite Hset in Hfs, Hout. simpl in Hfs, Hout.
  pose proof Hset as Hread.
  apply set_latest_version_read in Hread as (cur & Hcur & Hget).
  assert (info_mapping (add_version cur key version) !! key
          = Some {| version := version |}) as Hentry.
  { destruct cur; simpl; [apply lookup_insert_eq|apply lookup_singleton_eq]. }
  split; [|by eexists].
  (* the second upload, step by step *)
  assert (mkdir (parent remote_path) w1 = (inr tt, w1)) as Hmk1.
  { apply mkdir_from_present. intros r1 r2 Hr Hne. simpl. rewrite Hfs.
    rewrite lookup_insert_ne.
    - unfold mkdir in Hmk. by eapply (mkdir_from_dirs [] _ w wa r1 r2).
    - intros Heq. apply (f_equal length) in Heq.
      assert (length (parent remote_path) = length r1 + length r2) as Hlen
        by by rewrite Hr, length_app.
      rewrite (parent_length _ Hne0) in Heq. lia. }
  assert (node_at (fs w1) src = Some (File b)) as Hsrc1.
  { unfold node_at. rewrite Hfs.
    destruct (decide (remote_path = src)) as [->|Hne].
    - by rewrite lookup_insert_eq.
    - by rewrite lookup_insert_ne. }
  unfold upload_state_from_path. fold remote_path.
  rewrite (bind_inr _ _ _ _ _ Hmk1).
  assert (read_bytes src w1 = (inr b, w1)) as Hrd by (unfold read_bytes; by rewrite Hsrc1).
  rewrite (bind_inr _ _ _ _ _ Hrd).
  assert (write_bytes remote_path b w1 = (inr tt, w1)) as Hwr.
  { unfold write_bytes, node_at. rewrite Hfs.
    rewrite lookup_insert_ne, Hpar by done.
    rewrite lookup_insert_eq. f_equal.
    destruct w1 as [f1 k1 o1]. unfold set_fs. simpl in *. f_equal.
    subst f1. by rewrite insert_insert_eq. }
  rewrite (bind_inr _ _ _ _ _ Hwr).
  rewrite set_latest_version_unfold, Hget. simpl. f_equal.
  assert (kvs w1 !! INFO_KEY = Some (serialize_value (add_version cur key version)))
    as Hkv.
  { rewrite set_latest_version_unfold, Hcur in Hset. simplify_eq. simpl.
    apply lookup_insert_eq. }
  destruct w1 as [f1 k1 o1]. unfold set_kvs. simpl in *. f_equal.
  apply insert_id. rewrite Hkv. do 2 f_equal.
  destruct cur as [cur|]; simpl; f_equal.
  - by rewrite insert_insert_eq.
  - by rewrite insert_singleton_eq.
Qed.

End FacadeTheorems.

(** ** Histories: a blob is there only when it was uploaded *)

Section HistoryTheorems.
Context {S : Serdes}.

Implicit Types (w : World) (p q : path) (b : bytes) (h : list op).

Lemma write_bytes_fs p b w q :
  fs (write_bytes p b w).2 !! q ≠ None → fs w !! q ≠ None ∨ q = p.
Proof.
  unfold write_bytes.
  destruct (node_at (fs w) (parent p)) as [[|?]|]; [|by left..].
  destruct (node_at (fs w) p) as [[|?]|]; [by left|..]; simpl;
    (destruct (decide (q = p)) as [->|Hne];
     [by right|rewrite lookup_insert_ne by done; by left]).
Qed.

(** A path that appears during an upload is the state path of the upload or
    lies on the way to it. *)
Lemma upload_fs storage key version src w q :
  fs (upload_state_from_path storage key version src w).2 !! q ≠ None →
  fs w !! q ≠ None ∨ q `prefix_of` _get_state_path storage key version.
Proof.
  set (remote_path := _get_state_path storage key version).
  assert (∀ wa, wa = (mkdir (parent remote_path) w).2 →
                fs wa !! q ≠ None →
                fs w !! q ≠ None ∨ q `prefix_of` remote_path) as Hmk.
  { intros wa -> Hq. destruct (fs w !! q) eqn:Hw; [by left|right].
    destruct (mkdir_from_new [] _ w q Hw Hq) as (r1 & r2 & Hr & Hne & ->).
    destruct (decide (remote_path = [])) as [Hnil|Hnil].
    { rewrite Hnil in Hr. by destruct r1. }
    destruct (parent_split _ Hnil) as [s0 Hs]. rewrite Hs, Hr. simpl.
    rewrite <-app_assoc. by apply prefix_app_r. }
  intros Hq. unfold upload_state_from_path, bind in Hq. fold remote_path in Hq.
  destruct (mkdir (parent remote_path) w) as [[e|[]] wa] eqn:Hrun.
  { by apply (Hmk wa). }
  specialize (Hmk wa eq_refl).
  pose proof (read_bytes_world src wa) as Hrd.
  destruct (read_bytes src wa) as [[e|b] wb]; simpl in Hrd; subst wb.
  { by apply Hmk. }
  pose proof (write_bytes_fs remote_path b wa q) as Hwr.
  destruct (write_bytes remote_path b wa) as [[e|[]] wc]; simpl in Hwr.
  - destruct (Hwr Hq) as [?| ->]; [by apply Hmk|by right].
  - destruct (set_latest_version_fs key version wc) as [Hfs _].
    rewrite Hfs in Hq.
    destruct (Hwr Hq) as [?| ->]; [by apply Hmk|by right].
Qed.

Lemma download_fs storage key version dst w q :
  fs (download_state_to_path storage key version dst w).2 !! q ≠ None →
  fs w !! q ≠ None ∨ q = dst.
Proof.
  unfold download_state_to_path, bind, path_exists. simpl.
  destruct (negb _); [by left|].
  pose proof (read_bytes_world (_get_state_path storage key version) w) as Hrd.
  destruct (read_bytes _ w) as [[e|b] wb]; simpl in Hrd; subst wb; [by left|].
  apply write_bytes_fs.
Qed.

(** Between plain pairs the state paths neither coincide nor lie one on the
    way to the other. *)
Lemma state_path_plain_prefix storage key version key' version' :
  plain key → plain version → plain key' → plain version' →
  _get_state_path storage key version `prefix_of` _get_state_path storage key' version' →
  (key, version) = (key', version').
Proof.
  intros Hk Hv Hk' Hv'. rewrite !state_path_plain by done.
  intros [r Hr]. assert (r = []) as ->.
  { apply (f_equal length) in Hr. rewrite !length_app in Hr. simpl in Hr.
    destruct r; [done|]. simpl in Hr. lia. }
  rewrite app_nil_r in Hr. by simplify_list_eq.
Qed.

Lemma run_op_blobs storage o w key version :
  plain key → plain version →
  plain_upload o →
  download_avoids (_get_state_path storage key version) o →
  fs (run_op storage o w).2 !! _get_state_path storage key version ≠ None →
  fs w !! _get_state_path storage key version ≠ None ∨ (key, version) ∈ uploaded [o].
Proof.
  intros Hkey Hversion Hplain Hout Hq.
  destruct o as [k v src|k v dst|k v]; simpl in *.
  - destruct Hplain as [Hk Hv].
    destruct (upload_fs _ _ _ _ _ _ Hq) as [?|Hpre]; [by left|right].
    apply (state_path_plain_prefix storage) in Hpre as [= -> ->]; [|done..].
    set_solver.
  - destruct (download_fs _ _ _ _ _ _ Hq) as [?|Heq]; [by left|]. by destruct Hout.
  - destruct (set_latest_version_fs k v w) as [Hfs _]. rewrite Hfs in Hq. by left.
Qed.

Lemma uploaded_cons o h : uploaded (o :: h) = uploaded [o] ++ uploaded h.
Proof. by destruct o. Qed.

Lemma run_history_blobs storage h w key version :
  plain key → plain version →
  Forall plain_upload h →
  Forall (download_avoids (_get_state_path storage key version)) h →
  fs (run_history storage h w) !! _get_state_path storage key version ≠ None →
  fs w !! _get_state_path storage key version ≠ None ∨ (key, version) ∈ uploaded h.
Proof.
  intros Hkey Hversion.
  revert w. induction h as [|o h IH]; intros w Hplain Hout Hq; [by left|].
  apply Forall_cons in Hplain as [Hp Hplain].
  apply Forall_cons in Hout as [Ho Hout]. simpl in Hq.
  rewrite uploaded_cons, elem_of_app.
  destruct (IH _ Hplain Hout Hq) as [Hq'|Hin]; [|by auto].
  destruct (run_op_blobs _ _ _ _ _ Hkey Hversion Hp Ho Hq') as [?|Hin]; by auto.
Qed.

(** C6 (amended). For a key and a version that are plain, on a store used
    with plain keys and versions: when nothing is stored at the state path
    of (key, version) at the start, and the history, any sequence of uploads,
    downloads and pointer updates, names (key, version) in no upload and
    directs no download at that state path, a download of (key, version)
    raises the [ValueError] of the missing state, whatever other versions of
    the key were uploaded, and leaves the world, the destination included, as
    it was. *)
Theorem download_never_uploaded storage h w0 key version dst :
  plain key → plain version →
  Forall plain_upload h →
  fs w0 !! _get_state_path storage key version = None →
  Forall (download_avoids (_get_state_path storage key version)) h →
  (key, version) ∉ uploaded h →
  let w := run_history storage h w0 in
  download_state_to_path storage key version dst w =
  (inl (ValueError ("No state found for key " +:+ key +:+ " and version " +:+ version)),
   w).
Proof.
  intros Hkey Hversion Hplain Hempty Hout Hnot w.
  assert (fs w !! _get_state_path storage key version = None) as Hnone.
  { destruct (fs w !! _get_state_path storage key version) eqn:Hq; [|done].
    destruct (run_history_blobs storage h w0 key version Hkey Hversion Hplain Hout)
      as [Hw0|Hin].
    - fold w. by rewrite Hq.
    - by rewrite Hempty in Hw0.
    - done. }
  unfold download_state_to_path, bind, path_exists, node_at.
  rewrite Hnone. by rewrite bool_decide_false by by intros [? ?].
Qed.

(** ** Calls of [set_latest_version] in one event loop *)





End HistoryTheorems.

(** ** The status dict *)

Section Dict.
Context {V : Type}.

Implicit Types (d : list (string * V)) (k : string) (v : V).

Lemma dict_set_keys k v d k' :
  k' ∈ (dict_set k v d).*1 ↔ k' = k ∨ k' ∈ d.*1.
Proof.
  induction d as [|[k0 v0] d IH]; simpl.
  - set_solver.
  - case_decide; subst; simpl; rewrite ?elem_of_cons, ?IH; naive_solver.
Qed.

Lemma dict_set_NoDup k v d : NoDup d.*1 → NoDup (dict_set k v d).*1.
Proof.
  induction d as [|[k0 v0] d IH]; simpl.
  - intros _. apply NoDup_singleton.
  - intros [Hk0 Hd]%NoDup_cons. case_decide; subst; simpl.
    + by apply NoDup_cons.
    + apply NoDup_cons. split; [|by apply IH].
      rewrite dict_set_keys. naive_solver.
Qed.

Lemma dict_get_set k v d k' :
  dict_get k' (dict_set k v d) = if decide (k' = k) then Some v else dict_get k' d.
Proof.
  induction d as [|[k0 v0] d IH]; simpl.
  - by repeat case_decide.
  - repeat (case_decide; simplify_eq/=); try done; by rewrite IH, ?decide_True, ?decide_False.
Qed.

Lemma dict_get_None k d : dict_get k d = None ↔ k ∉ d.*1.
Proof.
  induction d as [|[k0 v0] d IH]; simpl.
  - set_solver.
  - case_decide; subst; rewrite ?not_elem_of_cons, ?IH; naive_solver.
Qed.

Lemma dict_get_elem k v d : NoDup d.*1 → (k, v) ∈ d ↔ dict_get k d = Some v.
Proof.
  induction d as [|[k0 v0] d IH]; simpl.
  - intros _. set_solver.
  - intros [Hk0 Hd]%NoDup_cons. rewrite elem_of_cons, (IH Hd).
    case_decide; subst.
    + split; [|naive_solver]. intros [?|Hget]; [naive_solver|].
      assert (dict_get k0 d ≠ None) as Hne by by rewrite Hget.
      rewrite dict_get_None in Hne. by destruct (decide (k0 ∈ d.*1)).
    + naive_solver.
Qed.

End Dict.

(** ** The orchestrator *)

Section OrchestratorLemmas.
Context {S : Serdes}.

Implicit Types (w : World) (c : StateBackedComponent) (statuses : statuses_t)
  (tr : list (string * (Exception + unit))).

Lemma same_store_refl w : same_store w w.
Proof. done. Qed.

Lemma same_store_sym w1 w2 : same_store w1 w2 → same_store w2 w1.
Proof. by intros [? ?]. Qed.

Lemma same_store_trans w1 w2 w3 :
  same_store w1 w2 → same_store w2 w3 → same_store w1 w3.
Proof. intros [? ?] [? ?]. split; congruence. Qed.

Lemma same_store_echo x w : same_store (click_echo x w).2 w.
Proof. done. Qed.

Lemma store_only_bind {A B} (m : M A) (k : A → M B) :
  store_only m → (∀ a, store_only (k a)) → store_only (bind m k).
Proof.
  intros Hm Hk w1 w2 Hs. unfold bind. destruct (Hm w1 w2 Hs) as [Hr Hs'].
  destruct (m w1) as [[e|a] w1'], (m w2) as [[e'|a'] w2']; simplify_eq/=; [done|].
  by apply Hk.
Qed.

Lemma store_only_read_bytes p : store_only (read_bytes p).
Proof.
  intros w1 w2 [Hfs Hkvs]. unfold read_bytes. rewrite Hfs.
  by destruct (node_at (fs w2) p) as [[|?]|].
Qed.

Lemma store_only_write_bytes p b : store_only (write_bytes p b).
Proof.
  intros w1 w2 [Hfs Hkvs]. unfold write_bytes. rewrite Hfs.
  destruct (node_at (fs w2) (parent p)) as [[|?]|]; [|done..].
  destruct (node_at (fs w2) p) as [[|?]|]; [done|..];
    (split; [done|]; split; simpl; congruence).
Qed.

Lemma store_only_mkdir_from d r : store_only (mkdir_from d r).
Proof.
  revert d. induction r as [|s r IH]; intros d w1 w2 Hs; [done|].
  simpl. destruct Hs as [Hfs Hkvs]. rewrite Hfs.
  destruct (fs w2 !! (d ++ [s])) as [[|?]|]; [by apply IH|done|].
  apply IH. split; simpl; congruence.
Qed.

Lemma store_only_get_latest : store_only get_latest_defs_state_info.
Proof.
  intros w1 w2 [Hfs Hkvs]. rewrite !get_latest_unfold. simpl. by rewrite Hkvs.
Qed.

Lemma store_only_set_latest_version key version :
  store_only (set_latest_version key version).
Proof.
  intros w1 w2 Hs. rewrite !set_latest_version_unfold.
  destruct (store_only_get_latest w1 w2 Hs) as [-> _].
  destruct ((get_latest_defs_state_info w2).1); [done|].
  destruct Hs as [Hfs Hkvs]. split; [done|]. split; simpl; congruence.
Qed.

Lemma store_only_upload storage key version src :
  store_only (upload_state_from_path storage key version src).
Proof.
  unfold upload_state_from_path.
  apply store_only_bind; [apply store_only_mkdir_from|intros _].
  apply store_only_bind; [apply store_only_read_bytes|intros b].
  apply store_only_bind; [apply store_only_write_bytes|intros _].
  apply store_only_set_latest_version.
Qed.

Lemma store_only_lift_fs f : store_only (lift_fs f).
Proof.
  intros w1 w2 [Hfs Hkvs]. unfold lift_fs. rewrite Hfs.
  by destruct (f (fs w2)) as [r f'].
Qed.

Lemma store_only_refresh_state storage c : store_only (refresh_state storage c).
Proof.
  unfold refresh_state.
  apply store_only_bind; [apply store_only_lift_fs|intros _].
  apply store_only_upload.
Qed.

(** One coroutine: an exception of the refresh that is no instance of
    [Exception] passes through, and nothing is recorded or shown; otherwise
    the coroutine returns, having recorded the outcome of the refresh under
    the component's key and shown the statuses. *)
Lemma refresh_component_unfold storage c statuses w :
  _refresh_component storage c statuses w =
  match escapes (refresh_state storage c w).1 with
  | Some e => (inl e, (refresh_state storage c w).2)
  | None =>
      let statuses' :=
        record_outcome statuses (get_state_key c, (refresh_state storage c w).1) in
      (inr statuses', (_update_display statuses' false (refresh_state storage c w).2).2)
  end.
Proof.
  unfold _refresh_component, try_except, bind, escapes.
  destruct (refresh_state storage c w) as [[e|[]] w1]; [|done]. simpl.
  by destruct (isinstance_Exception e).
Qed.

Lemma first_escape_cons k r tr :
  first_escape ((k, r) :: tr) =
  match escapes r with
  | Some e => Some e
  | None => first_escape tr
  end.
Proof. unfold first_escape. simpl. by destruct (escapes r). Qed.

(** No exception passes through when every exception raised is an instance
    of [Exception]. *)
Lemma first_escape_None tr :
  first_escape tr = None ↔ ∀ k e, (k, inl e) ∈ tr → isinstance_Exception e = true.
Proof.
  induction tr as [|[k r] tr IH].
  { split; [|done]. by intros _ k e ?%elem_of_nil. }
  rewrite first_escape_cons. destruct r as [e|[]]; simpl.
  - destruct (isinstance_Exception e) eqn:He.
    + rewrite IH. split.
      * intros Hall k' e' [[= -> ->]|Hin]%elem_of_cons; [done|]. by apply (Hall k').
      * intros Hall k' e' Hin. apply (Hall k'). by right.
    + split; [done|]. intros Hall. rewrite (Hall k e) in He; [done|by left].
  - rewrite IH. split.
    + intros Hall k' e' [[=]|Hin]%elem_of_cons. by apply (Hall k').
    + intros Hall k' e' Hin. apply (Hall k'). by right.
Qed.

(** The join: every coroutine of [order] has its turn, and the store is the
    one the refreshes leave. The join raises the first exception that passed
    through; when there is none, the statuses are the outcomes recorded in
    the order of the turns. *)
Lemma gather_outcomes storage order statuses w wp :
  same_store w wp →
  ∃ w', gather (_refresh_component storage) order statuses w =
        (match first_escape (refresh_outcomes storage order wp).1 with
         | Some e => inl e
         | None =>
             inr (foldl record_outcome statuses (refresh_outcomes storage order wp).1)
         end, w') ∧
        same_store w' (refresh_outcomes storage order wp).2.
Proof.
  revert statuses w wp. induction order as [|c order IH]; intros statuses w wp Hs.
  { by exists w. }
  cbn [gather refresh_outcomes]. rewrite refresh_component_unfold.
  destruct (store_only_refresh_state storage c w wp Hs) as [Hr Hs'].
  destruct (refresh_state storage c wp) as [r wp1]. simpl in Hr, Hs'.
  rewrite Hr. destruct (escapes r) as [e|] eqn:Hesc.
  - destruct (IH statuses (refresh_state storage c w).2 wp1 Hs') as (w' & Hrun & Hs'').
    exists w'. rewrite Hrun. destruct (refresh_outcomes storage order wp1) as [tr wp2].
    simpl in *. by rewrite first_escape_cons, Hesc.
  - edestruct (IH (record_outcome statuses (get_state_key c, r))
                 (_update_display (record_outcome statuses (get_state_key c, r)) false
                    (refresh_state storage c w).2).2 wp1) as (w' & Hrun & Hs'').
    { done. }
    exists w'. cbv beta iota zeta. rewrite Hrun.
    destruct (refresh_outcomes storage order wp1) as [tr wp2].
    simpl in *. by rewrite first_escape_cons, Hesc.
Qed.

Lemma refresh_outcomes_keys storage order w :
  (refresh_outcomes storage order w).1.*1 = get_state_key <$> order.
Proof.
  revert w. induction order as [|c order IH]; intros w; [done|].
  simpl. destruct (refresh_state storage c w) as [r w1]. specialize (IH w1).
  destruct (refresh_outcomes storage order w1) as [tr w2]. simpl in *.
  by f_equal.
Qed.

Lemma last_outcome_None k tr : last_outcome k tr = None ↔ k ∉ tr.*1.
Proof.
  induction tr as [|[k' r] tr IH]; simpl; [set_solver|].
  rewrite not_elem_of_cons, <-IH. simpl.
  destruct (last_outcome k tr); [naive_solver|].
  case_decide; naive_solver.
Qed.

Lemma last_outcome_elem k r tr :
  NoDup tr.*1 → (k, r) ∈ tr ↔ last_outcome k tr = Some r.
Proof.
  induction tr as [|[k' r'] tr IH]; simpl; [intros _; set_solver|].
  intros [Hk' Hnd]%NoDup_cons. rewrite elem_of_cons, (IH Hnd).
  destruct (last_outcome k tr) as [r0|] eqn:Hlast.
  - assert (k ≠ k').
    { intros ->. apply Hk'. apply dec_stable. rewrite <-last_outcome_None.
      by rewrite Hlast. }
    naive_solver.
  - case_decide; naive_solver.
Qed.

Lemma foldl_record_keys statuses tr k :
  k ∈ (foldl record_outcome statuses tr).*1 ↔ k ∈ statuses.*1 ∨ k ∈ tr.*1.
Proof.
  revert statuses. induction tr as [|[k' r] tr IH]; intros statuses; simpl.
  - set_solver.
  - rewrite IH. unfold record_outcome. rewrite dict_set_keys, elem_of_cons. simpl.
    naive_solver.
Qed.

Lemma foldl_record_NoDup statuses tr :
  NoDup statuses.*1 → NoDup (foldl record_outcome statuses tr).*1.
Proof.
  revert statuses. induction tr as [|[k' r] tr IH]; intros statuses Hnd; [done|].
  simpl. apply IH. by apply dict_set_NoDup.
Qed.

(** The later transition overwrites the earlier. *)
Lemma foldl_record_get statuses tr k :
  dict_get k (foldl record_outcome statuses tr) =
  match last_outcome k tr with
  | Some r => Some (status_of r)
  | None => dict_get k statuses
  end.
Proof.
  revert statuses. induction tr as [|[k' r] tr IH]; intros statuses; [done|].
  simpl. rewrite IH. destruct (last_outcome k tr); [done|].
  unfold record_outcome. rewrite dict_get_set. simpl. by case_decide.
Qed.

Lemma initial_statuses_acc (to_refresh : list StateBackedComponent) (d : statuses_t) :
  let d' := foldl (λ d c, dict_set (get_state_key c)
                            {| status := Updating; error := None |} d) d to_refresh in
  (NoDup d.*1 → NoDup d'.*1) ∧
  (∀ k, k ∈ d'.*1 ↔ k ∈ d.*1 ∨ k ∈ get_state_key <$> to_refresh) ∧
  (∀ k st, dict_get k d' = Some st →
           status st = Error → dict_get k d = Some st).
Proof.
  revert d. induction to_refresh as [|c l IH]; intros d; simpl.
  { split_and!; [done|set_solver|done]. }
  destruct (IH (dict_set (get_state_key c) {| status := Updating; error := None |} d))
    as (Hnd & Hkeys & Hget).
  split_and!.
  - intros ?. by apply Hnd, dict_set_NoDup.
  - intros k. rewrite Hkeys, dict_set_keys, elem_of_cons. naive_solver.
  - intros k st Hst Herr. specialize (Hget k st Hst Herr).
    rewrite dict_get_set in Hget. case_decide; [|done]. by simplify_eq.
Qed.

Lemma initial_statuses_NoDup to_refresh : NoDup (initial_statuses to_refresh).*1.
Proof. apply (initial_statuses_acc to_refresh []). simpl. apply NoDup_nil_2. Qed.

Lemma initial_statuses_keys to_refresh k :
  k ∈ (initial_statuses to_refresh).*1 ↔ k ∈ get_state_key <$> to_refresh.
Proof.
  destruct (initial_statuses_acc to_refresh []) as (_ & Hkeys & _).
  rewrite (Hkeys k). set_solver.
Qed.

Lemma initial_statuses_no_error to_refresh k st :
  dict_get k (initial_statuses to_refresh) = Some st → status st ≠ Error.
Proof.
  destruct (initial_statuses_acc to_refresh []) as (_ & _ & Hget).
  intros Hst Herr. by specialize (Hget k st Hst Herr).
Qed.

Lemma collect_errors_elem statuses k e :
  (k, e) ∈ collect_errors statuses ↔
  ∃ st, (k, st) ∈ statuses ∧ status st = Error ∧ error st = Some e ∧
        exception_bool e = true.
Proof.
  unfold collect_errors. rewrite list_elem_of_omap. split.
  - intros ([k' st] & Hin & Hsome). simpl in Hsome.
    destruct (status st) eqn:?, (error st) as [e'|] eqn:?; simplify_eq.
    destruct (exception_bool e') eqn:?; simplify_eq. by exists st.
  - intros (st & Hin & Hst & He & Hb). exists (k, st). split; [done|]. simpl.
    by rewrite Hst, He, Hb.
Qed.

Lemma for_each_echo {A} (l : list A) (f : A → echoed) w :
  for_each l (λ x, click_echo (f x)) w =
  (inr tt, set_stdout (λ out, out ++ (f <$> l)) w).
Proof.
  revert w. induction l as [|x l IH]; intros w; simpl.
  - unfold ret, set_stdout. destruct w. simpl. by rewrite app_nil_r.
  - unfold bind, click_echo at 1. rewrite IH. unfold set_stdout. simpl.
    by rewrite <-app_assoc.
Qed.

End OrchestratorLemmas.

Section OrchestratorTheorems.
Context {S : Serdes}.

Implicit Types (w : World) (c : StateBackedComponent) (statuses : statuses_t)
  (tr : list (string * (Exception + unit))).

(** What a refresh does to the key-value table: nothing, or one
    [set_latest_version] of its own key that returned. *)
Lemma refresh_state_kvs storage c w :
  kvs (refresh_state storage c w).2 = kvs w ∨
  ∃ wm, kvs wm = kvs w ∧
        set_latest_version (get_state_key c) (new_version c) wm =
        (inr tt, (refresh_state storage c w).2).
Proof.
  unfold refresh_state, bind.
  assert (kvs (lift_fs (write_state_to_path c) w).2 = kvs w) as Hlift.
  { unfold lift_fs. by destruct (write_state_to_path c (fs w)). }
  destruct (lift_fs (write_state_to_path c) w) as [[e|[]] wa]; simpl in Hlift; [by left|].
  rewrite upload_split. unfold bind.
  destruct (fs_only_write_blob storage (get_state_key c) (new_version c)
              (state_path c) wa) as [Hblob _].
  destruct (write_blob _ _ _ _ wa) as [[e|[]] wb]; simpl in Hblob.
  { left. simpl. congruence. }
  destruct (set_latest_version _ _ wb) as [[e|[]] wc] eqn:Hset.
  - left. rewrite set_latest_version_unfold in Hset.
    destruct ((get_latest_defs_state_info wb).1); simplify_eq. simpl. congruence.
  - right. exists wb. split; [congruence|done].
Qed.

Lemma refresh_state_points_to `{!SerdesRoundTrip S} storage c w w1 :
  refresh_state storage c w = (inr tt, w1) →
  points_to w1 (get_state_key c) (new_version c).
Proof.
  unfold refresh_state. intros ([] & wa & _ & Hup)%bind_inr_inv.
  apply upload_inr in Hup as (wb & b & _ & _ & _ & _ & Hset).
  apply set_latest_version_read in Hset as (cur & _ & Hget).
  eexists. rewrite Hget. split; [done|].
  destruct cur; simpl; [apply lookup_insert_eq|apply lookup_singleton_eq].
Qed.

Lemma refresh_state_keeps `{!SerdesRoundTrip S} storage c w k v :
  get_state_key c ≠ k →
  points_to w k v → points_to (refresh_state storage c w).2 k v.
Proof.
  intros Hne (info & Hget & Hk).
  destruct (refresh_state_kvs storage c w) as [Hkvs|(wm & Hkvs & Hset)].
  - exists info. by rewrite (get_latest_kvs _ w).
  - rewrite <-(get_latest_kvs _ _ Hkvs) in Hget.
    destruct (set_latest_version_merge (get_state_key c) (new_version c) wm
                (Some info) Hget) as (w' & info' & Hset' & Hget' & _ & Hframe & _).
    rewrite Hset in Hset'. simplify_eq. exists info'. rewrite Hget'.
    split; [done|]. rewrite Hframe by done. done.
Qed.

Lemma refresh_outcomes_keeps `{!SerdesRoundTrip S} storage order w k v :
  k ∉ get_state_key <$> order →
  points_to w k v → points_to (refresh_outcomes storage order w).2 k v.
Proof.
  revert w. induction order as [|c order IH]; intros w Hk Hp; [done|].
  simpl in *. apply not_elem_of_cons in Hk as [Hne Hk].
  pose proof (refresh_state_keeps storage c w k v (not_eq_sym Hne) Hp) as Hp1.
  destruct (refresh_state storage c w) as [r w1]. specialize (IH w1 Hk Hp1).
  by destruct (refresh_outcomes storage order w1) as [tr w2].
Qed.

(** With distinct keys, the entry a successful refresh wrote is there after
    the last turn. *)
Lemma refresh_outcomes_points_to `{!SerdesRoundTrip S} storage order w c :
  NoDup (get_state_key <$> order) → c ∈ order →
  (get_state_key c, inr tt) ∈ (refresh_outcomes storage order w).1 →
  points_to (refresh_outcomes storage order w).2 (get_state_key c) (new_version c).
Proof.
  revert w. induction order as [|c0 order IH]; intros w Hnd Hc Hin.
  { by apply elem_of_nil in Hc. }
  rewrite fmap_cons in Hnd. apply NoDup_cons in Hnd as [Hc0 Hnd].
  pose proof (refresh_outcomes_keys storage order) as Hkeys.
  pose proof (refresh_outcomes_keeps storage order) as Hkeep.
  pose proof (refresh_state_points_to storage c0 w) as Hnew.
  cbn [refresh_outcomes] in Hin |- *.
  destruct (refresh_state storage c0 w) as [r w1].
  specialize (IH w1 Hnd). specialize (Hkeys w1). specialize (Hkeep w1).
  destruct (refresh_outcomes storage order w1) as [tr w2]. cbn [fst snd] in *.
  assert (∀ r', (get_state_key c0, r') ∉ tr) as Hfresh.
  { intros r' Hin'. apply Hc0.
    apply (list_elem_of_fmap_2 fst) in Hin'. by rewrite Hkeys in Hin'. }
  apply elem_of_cons in Hc as [->|Hc], Hin as [Heq|Hin].
  - simplify_eq. apply Hkeep; [done|]. by apply Hnew.
  - by destruct (Hfresh (inr ())).
  - injection Heq as Hkey _. destruct Hc0. rewrite <-Hkey.
    by apply list_elem_of_fmap_2.
  - by apply IH.
Qed.

(** C9. With no component to refresh the command returns (exit code 0) and
    leaves the file system and the key-value table as they were: the pointer
    record reads as before, absent when it was absent. *)
Theorem refresh_nothing storage order w :
  order ≡ₚ [] →
  ∃ w', refresh_component_state storage [] order w = (inr tt, w') ∧
        exit_code (refresh_component_state storage [] order w).1 = 0 ∧
        fs w' = fs w ∧ kvs w' = kvs w ∧
        (get_latest_defs_state_info w').1 = (get_latest_defs_state_info w).1 ∧
        ((get_latest_defs_state_info w).1 = inr None →
         (get_latest_defs_state_info w').1 = inr None).
Proof.
  intros ->%Permutation_nil_r.
  exists (set_stdout (λ out, (out ++ [Display true []]) ++ [Done]) w).
  split; [done|]. split; [done|]. split; [done|]. split; [done|].
  assert ((get_latest_defs_state_info
             (refresh_component_state storage [] [] w).2).1 =
          (get_latest_defs_state_info w).1) as Heq by by apply get_latest_kvs.
  split; [done|]. intros Hnone. by rewrite <-Hnone.
Qed.

(** C10. Whatever the list of components and the order of their turns: the
    join completes exactly when no refresh raised an exception that is no
    instance of [Exception] (such an exception passes through the join). And
    whenever the join completes, the status dict has one entry per distinct
    state key of the list; every entry is [Success] or [Error], none is
    [Updating]; and the entry of a key is the outcome of the last component
    that reported under it. *)
Theorem statuses_after_join storage components order w :
  order ≡ₚ components →
  let tr := (refresh_outcomes storage order w).1 in
  let r := _refresh_components_with_display storage components order
             (initial_statuses components) w in
  ((∃ statuses, r.1 = inr statuses) ↔
   ∀ k e, (k, inl e) ∈ tr → isinstance_Exception e = true) ∧
  ∀ statuses, r.1 = inr statuses →
    NoDup statuses.*1 ∧
    (∀ k, k ∈ statuses.*1 ↔ k ∈ get_state_key <$> components) ∧
    (∀ k st, (k, st) ∈ statuses → status st = Success ∨ status st = Error) ∧
    (∀ k st, (k, st) ∈ statuses →
             status_of <$> last_outcome k tr = Some st).
Proof.
  intros Hperm tr r.
  destruct (gather_outcomes storage order (initial_statuses components) w w)
    as (w' & Hrun & _); [done|].
  fold tr in Hrun. unfold r, _refresh_components_with_display. rewrite Hrun.
  clear Hrun r. cbn [fst]. rewrite <-first_escape_None.
  destruct (first_escape tr) as [e|].
  { split; [|done]. split; [by intros [? ?]|done]. }
  split; [split; [done|by eexists]|].
  intros statuses [= <-].
  assert (tr.*1 = get_state_key <$> order) as Hkeys
    by apply refresh_outcomes_keys.
  assert (NoDup (foldl record_outcome (initial_statuses components) tr).*1) as Hnd.
  { apply foldl_record_NoDup, initial_statuses_NoDup. }
  assert (∀ k, k ∈ (foldl record_outcome (initial_statuses components) tr).*1 ↔
               k ∈ get_state_key <$> components) as Hdom.
  { intros k. rewrite foldl_record_keys, initial_statuses_keys, Hkeys, Hperm.
    naive_solver. }
  assert (∀ k st, (k, st) ∈ foldl record_outcome (initial_statuses components) tr →
                  status_of <$> last_outcome k tr = Some st) as Hlast.
  { intros k st Hin. pose proof Hin as Hget.
    rewrite (dict_get_elem _ _ _ Hnd), foldl_record_get in Hget.
    destruct (last_outcome k tr) as [r|] eqn:Hk; [done|].
    apply last_outcome_None in Hk. destruct Hk.
    rewrite Hkeys, Hperm, <-Hdom. by apply (list_elem_of_fmap_2 fst) in Hin. }
  split_and!; [done|done| |done].
  intros k st Hin. specialize (Hlast k st Hin).
  destruct (last_outcome k tr) as [[e|[]]|]; simplify_eq/=; auto.
Qed.

(** The command, unfolded: after the initial view and the join, an
    exception that passed through the join ends the command; otherwise the
    statuses are the outcomes recorded over the initial dict, and the end is
    decided by the errors collected from them. *)
Lemma command_unfold storage to_refresh order w :
  let tr := (refresh_outcomes storage order w).1 in
  let statuses := foldl record_outcome (initial_statuses to_refresh) tr in
  ∃ w1,
    same_store w1 (refresh_outcomes storage order w).2 ∧
    stdout w1 =
    stdout (gather (_refresh_component storage) order (initial_statuses to_refresh)
              (_update_display (initial_statuses to_refresh) true w).2).2 ∧
    refresh_component_state storage to_refresh order w =
    match first_escape tr with
    | Some e => (inl e, w1)
    | None =>
        match collect_errors statuses with
        | (_, first) :: _ =>
            (inl first,
             set_stdout (λ out, out ++ ErrorsHeader ::
                                  ((λ ke, ErrorLine ke.1 ke.2) <$> collect_errors statuses))
               w1)
        | [] => (inr tt, set_stdout (λ out, out ++ [Done]) w1)
        end
    end.
Proof.
  intros tr statuses.
  set (w0 := (_update_display (initial_statuses to_refresh) true w).2).
  destruct (gather_outcomes storage order (initial_statuses to_refresh) w0 w)
    as (w1 & Hrun & Hstore); [done|].
  fold tr in Hrun. fold statuses in Hrun. exists w1. split; [done|].
  split; [by rewrite Hrun|].
  unfold refresh_component_state.
  assert (_update_display (initial_statuses to_refresh) true w = (inr tt, w0))
    as Hshow by done.
  rewrite (bind_inr _ _ _ _ _ Hshow).
  unfold _refresh_components_with_display.
  destruct (first_escape tr) as [e|].
  { by rewrite (bind_inl _ _ _ _ _ Hrun). }
  rewrite (bind_inr _ _ _ _ _ Hrun). cbv zeta. fold statuses.
  destruct (collect_errors statuses) as [|[k0 first] rest]; [done|].
  assert (click_echo ErrorsHeader w1 = (inr tt, (click_echo ErrorsHeader w1).2))
    as Hhead by done.
  rewrite (bind_inr _ _ _ _ _ Hhead).
  rewrite (bind_inr _ _ _ _ _ (for_each_echo _ _ _)).
  unfold raise, set_stdout. simpl. by rewrite <-app_assoc.
Qed.

(** The errors collected are the keys whose last outcome is an exception
    that is truthy. *)
Lemma collect_errors_last to_refresh tr k e :
  (k, e) ∈ collect_errors (foldl record_outcome (initial_statuses to_refresh) tr)
  ↔ last_outcome k tr = Some (inl e) ∧ exception_bool e = true.
Proof.
  assert (NoDup (foldl record_outcome (initial_statuses to_refresh) tr).*1) as Hnd.
  { apply foldl_record_NoDup, initial_statuses_NoDup. }
  rewrite collect_errors_elem. split.
  - intros (st & Hin & Hst & He & Hb).
    rewrite (dict_get_elem _ _ _ Hnd), foldl_record_get in Hin.
    destruct (last_outcome k tr) as [[e'|[]]|]; simplify_eq/=; [done|].
    by destruct (initial_statuses_no_error _ _ _ Hin).
  - intros [Hlast Hb]. exists (status_of (inl e)). split; [|done].
    by rewrite (dict_get_elem _ _ _ Hnd), foldl_record_get, Hlast.
Qed.


End OrchestratorTheorems.

(** ** The concrete encoding and the examples *)

Lemma list_serdes_round_trip : SerdesRoundTrip list_serdes.
Proof.
  intros [m]. simpl. unfold list_deserialize, list_serialize. simpl.
  assert ((prod_map id version <$> map_to_list m).*1 = (map_to_list m).*1) as Hfst.
  { rewrite <-list_fmap_compose. apply list_fmap_ext. by intros _ [k e] _. }
  rewrite decide_True by (rewrite Hfst; apply NoDup_fst_map_to_list).
  do 2 f_equal. rewrite <-list_fmap_compose.
  rewrite <-(list_to_map_to_list m) at 2. f_equal.
  rewrite <-(list_fmap_id (map_to_list m)) at 2.
  apply list_fmap_ext. by intros _ [k [v]] _.
Qed.

Example corrupt_record_raises :
  (get_latest_defs_state_info ex_world_corrupt).1
  = inl (DeserializationError "duplicate key").
Proof. vm_compute. reflexivity. Qed.

Example first_upload_publishes :
  (get_latest_defs_state_info ex_world_uploaded).1
  = inr (Some {| info_mapping := {[ "k" := {| version := "v1" |} ]} |}).
Proof. vm_compute. reflexivity. Qed.

(** C3, at the example world after the upload of (k, v1): the record holds
    the entry of k before the call for the key other, and both after it. *)
Lemma set_latest_version_frame_witness :
  (get_latest_defs_state_info ex_world_uploaded).1
  = inr (Some {| info_mapping := {[ "k" := {| version := "v1" |} ]} |}) ∧
  ∃ w' info,
    set_latest_version "other" "v9" ex_world_uploaded = (inr tt, w') ∧
    get_latest_defs_state_info w' = (inr (Some info), w') ∧
    info_mapping info !! "other" = Some {| version := "v9" |} ∧
    (∀ key', key' ≠ "other" →
             info_mapping info !! key'
             = entries (Some {| info_mapping := {[ "k" := {| version := "v1" |} ]} |})
                 !! key') ∧
    fs w' = fs ex_world_uploaded.
Proof.
  assert ((get_latest_defs_state_info ex_world_uploaded).1
          = inr (Some {| info_mapping := {[ "k" := {| version := "v1" |} ]} |}))
    as Hprior by (vm_compute; reflexivity).
  split; [exact Hprior|].
  exact (@set_latest_version_frame list_serdes list_serdes_round_trip
           "other" "v9" ex_world_uploaded _ Hprior).
Defined.

Example set_latest_version_keeps_entry :
  (get_latest_defs_state_info (set_latest_version "other" "v9" ex_world_uploaded).2).1
  = inr (Some {| info_mapping := {[ "k" := {| version := "v1" |};
                                     "other" := {| version := "v9" |} ]} |}).
Proof. vm_compute. reflexivity. Qed.

(** C1: an upload of (k, v1) has published; the same upload made again from a
    source that is not there raises in the blob-write phase, and the record
    read afterwards does map k to v1. *)
Lemma failed_reupload_still_points :
  let r := upload_state_from_path ex_storage "k" "v1" ["missing"] ex_world_uploaded in
  (write_blob ex_storage "k" "v1" ["missing"] ex_world_uploaded).1
  = inl FileNotFoundError ∧
  r.1 = inl FileNotFoundError ∧
  (get_latest_defs_state_info r.2).1
  = inr (Some {| info_mapping := {[ "k" := {| version := "v1" |} ]} |}).
Proof. split_and!; vm_compute; reflexivity. Qed.

Lemma failed_blob_write_keeps_pointer_witness :
  let w1 := (write_blob ex_storage "k" "v1" ["missing"] ex_world_uploaded).2 in
  write_blob ex_storage "k" "v1" ["missing"] ex_world_uploaded
  = (inl FileNotFoundError, w1) ∧
  upload_state_from_path ex_storage "k" "v1" ["missing"] ex_world_uploaded
  = (inl FileNotFoundError, w1) ∧
  kvs w1 = kvs ex_world_uploaded ∧
  (get_latest_defs_state_info w1).1
  = (get_latest_defs_state_info ex_world_uploaded).1.
Proof.
  intros w1.
  assert (write_blob ex_storage "k" "v1" ["missing"] ex_world_uploaded
          = (inl FileNotFoundError, w1)) as H.
  { apply run_eq. vm_compute. reflexivity. }
  split; [exact H|].
  exact (failed_blob_write_keeps_pointer ex_storage "k" "v1" ["missing"]
           ex_world_uploaded FileNotFoundError w1 H).
Defined.

Lemma ex_world_uploaded_run :
  upload_state_from_path ex_storage "k" "v1" ["src"] ex_world
  = (inr tt, ex_world_uploaded).
Proof. apply run_eq. vm_compute. reflexivity. Defined.

Lemma upload_download_round_trip_witness :
  node_at (fs ex_world) ["src"] = Some (File [x01; x02]) ∧
  upload_state_from_path ex_storage "k" "v1" ["src"] ex_world
  = (inr tt, ex_world_uploaded) ∧
  ∃ w2, download_state_to_path ex_storage "k" "v1" ["dst"] ex_world_uploaded
        = (inr tt, w2) ∧
        fs w2 !! ["dst"] = Some (File [x01; x02]).
Proof.
  assert (node_at (fs ex_world) ["src"] = Some (File [x01; x02])) as Hsrc
    by (vm_compute; reflexivity).
  split; [exact Hsrc|]. split; [exact ex_world_uploaded_run|].
  apply (upload_download_round_trip ex_storage "k" "v1" ["src"] ["dst"]
           [x01; x02] ex_world ex_world_uploaded Hsrc ex_world_uploaded_run).
  - reflexivity.
  - vm_compute. discriminate.
Defined.

Lemma upload_twice_witness :
  upload_state_from_path ex_storage "k" "v1" ["src"] ex_world
  = (inr tt, ex_world_uploaded) ∧
  upload_state_from_path ex_storage "k" "v1" ["src"] ex_world_uploaded
  = (inr tt, ex_world_uploaded) ∧
  ∃ info, get_latest_defs_state_info ex_world_uploaded
          = (inr (Some info), ex_world_uploaded) ∧
          info_mapping info !! "k" = Some {| version := "v1" |}.
Proof.
  split; [exact ex_world_uploaded_run|].
  exact (@upload_twice list_serdes list_serdes_round_trip ex_storage "k" "v1"
           ["src"] ex_world ex_world_uploaded ex_world_uploaded_run).
Defined.

(** C6: the pairs (a/b, c) and (a, b/c) have one state path. After the
    upload of the first, the download of the second, which was never uploaded,
    returns and writes the destination. And after a download directed at the
    state path of (k, v2), the download of (k, v2), which was never uploaded,
    returns as well. *)
Lemma download_of_pair_never_uploaded :
  (let w := run_history ex_storage ex_alias_history ex_world in
   (("a", "b/c") ∉ uploaded ex_alias_history) ∧
   fs ex_world !! _get_state_path ex_storage "a" "b/c" = None ∧
   (download_state_to_path ex_storage "a" "b/c" ["dst"] w).1 = inr tt ∧
   fs (download_state_to_path ex_storage "a" "b/c" ["dst"] w).2 !! ["dst"]
   = Some (File [x01; x02])) ∧
  (let w := run_history ex_storage ex_inward_history ex_world in
   (("k", "v2") ∉ uploaded ex_inward_history) ∧
   fs ex_world !! _get_state_path ex_storage "k" "v2" = None ∧
   (download_state_to_path ex_storage "k" "v2" ["dst"] w).1 = inr tt ∧
   fs (download_state_to_path ex_storage "k" "v2" ["dst"] w).2 !! ["dst"]
   = Some (File [x01; x02])).
Proof.
  split; (split_and!; [|vm_compute; reflexivity..]).
  - simpl. intros Hin. apply list_elem_of_singleton in Hin. discriminate.
  - simpl. intros Hin. apply list_elem_of_singleton in Hin. discriminate.
Qed.

Lemma plain_example s :
  bool_decide (plain s) = true → plain s.
Proof. apply bool_decide_eq_true. Qed.

Lemma download_never_uploaded_witness :
  plain "k" ∧ plain "v2" ∧
  Forall plain_upload ex_history ∧
  fs ex_world !! _get_state_path ex_storage "k" "v2" = None ∧
  Forall (download_avoids (_get_state_path ex_storage "k" "v2")) ex_history ∧
  (("k", "v2") ∉ uploaded ex_history) ∧
  download_state_to_path ex_storage "k" "v2" ["dst2"]
    (run_history ex_storage ex_history ex_world)
  = (inl (ValueError "No state found for key k and version v2"),
     run_history ex_storage ex_history ex_world).
Proof.
  assert (plain "k") as Hk by (apply plain_example; vm_compute; reflexivity).
  assert (plain "v1") as Hv1 by (apply plain_example; vm_compute; reflexivity).
  assert (plain "v2") as Hv2 by (apply plain_example; vm_compute; reflexivity).
  assert (Forall plain_upload ex_history) as Hplain.
  { repeat (apply Forall_cons; split);
      [split; assumption|exact I|exact I|apply Forall_nil_2]. }
  assert (fs ex_world !! _get_state_path ex_storage "k" "v2" = None) as Hempty
    by (vm_compute; reflexivity).
  assert (Forall (download_avoids (_get_state_path ex_storage "k" "v2")) ex_history)
    as Hout.
  { repeat (apply Forall_cons; split);
      [exact I|vm_compute; discriminate|exact I|apply Forall_nil_2]. }
  assert (("k", "v2") ∉ uploaded ex_history) as Hnot.
  { simpl. intros Hin. apply list_elem_of_singleton in Hin. discriminate. }
  split; [exact Hk|]. split; [exact Hv2|]. split; [exact Hplain|].
  split; [exact Hempty|]. split; [exact Hout|]. split; [exact Hnot|].
  exact (download_never_uploaded ex_storage ex_history ex_world "k" "v2" ["dst2"]
           Hk Hv2 Hplain Hempty Hout Hnot).
Defined.


Example ex_calls_record :
  (get_latest_defs_state_info
     (run_schedule (loop_schedule [1; 0]) (slv_start <$> [("a", "1"); ("b", "2")])
        ex_world_uploaded).2).1
  = inr (Some {| info_mapping := {[ "a" := {| version := "1" |};
                                     "b" := {| version := "2" |};
                                     "k" := {| version := "v1" |} ]} |}).
Proof. vm_compute. reflexivity. Qed.

Lemma refresh_nothing_witness :
  [] ≡ₚ ([] : list StateBackedComponent) ∧
  ∃ w', refresh_component_state ex_storage [] [] ex_world = (inr tt, w') ∧
        exit_code (refresh_component_state ex_storage [] [] ex_world).1 = 0 ∧
        fs w' = fs ex_world ∧ kvs w' = kvs ex_world ∧
        (get_latest_defs_state_info w').1 = (get_latest_defs_state_info ex_world).1 ∧
        ((get_latest_defs_state_info ex_world).1 = inr None →
         (get_latest_defs_state_info w').1 = inr None).
Proof.
  split; [reflexivity|].
  exact (refresh_nothing ex_storage [] ex_world (Permutation_refl [])).
Defined.

Lemma ex_batch_order_perm : ex_batch_order ≡ₚ ex_batch.
Proof.
  unfold ex_batch_order, ex_batch.
  etrans; [apply Permutation_swap|]. apply perm_skip, Permutation_swap.
Defined.

Lemma statuses_after_join_witness :
  ex_batch_order ≡ₚ ex_batch ∧
  let tr := (refresh_outcomes ex_storage ex_batch_order ex_world).1 in
  let r := _refresh_components_with_display ex_storage ex_batch ex_batch_order
             (initial_statuses ex_batch) ex_world in
  ((∃ statuses, r.1 = inr statuses) ↔
   ∀ k e, (k, inl e) ∈ tr → isinstance_Exception e = true) ∧
  ∀ statuses, r.1 = inr statuses →
    NoDup statuses.*1 ∧
    (∀ k, k ∈ statuses.*1 ↔ k ∈ get_state_key <$> ex_batch) ∧
    (∀ k st, (k, st) ∈ statuses → status st = Success ∨ status st = Error) ∧
    (∀ k st, (k, st) ∈ statuses →
             status_of <$> last_outcome k tr = Some st).
Proof.
  split; [exact ex_batch_order_perm|].
  exact (statuses_after_join ex_storage ex_batch ex_batch_order ex_world
           ex_batch_order_perm).
Defined.

Example ex_batch_statuses :
  (_refresh_components_with_display ex_storage ex_batch ex_batch_order
     (initial_statuses ex_batch) ex_world).1
  = inr [ ("a", {| status := Success; error := None |});
          ("b", {| status := Error; error := Some (ComponentError "fail_write") |});
          ("c", {| status := Success; error := None |}) ].
Proof. vm_compute. reflexivity. Qed.

(** A refresh that is cancelled: the join raises [CancelledError]; the
    coroutine of the cancelled component has shown nothing, the two others
    have had their turns, and the command ends with neither an error report
    nor the closing line. *)
Example cancelled_refresh_passes_through :
  (_refresh_components_with_display ex_storage ex_cancelled_batch ex_cancelled_batch
     (initial_statuses ex_cancelled_batch) ex_world).1 = inl CancelledError ∧
  (refresh_component_state ex_storage ex_cancelled_batch ex_cancelled_batch
     ex_world).1 = inl CancelledError ∧
  stdout (refresh_component_state ex_storage ex_cancelled_batch ex_cancelled_batch
            ex_world).2
  = [ Display true [("a", Updating); ("b", Updating); ("c", Updating)];
      Display false [("a", Success); ("b", Updating); ("c", Updating)];
      Display false [("a", Success); ("b", Updating); ("c", Success)] ].
Proof. split_and!; vm_compute; reflexivity. Qed.

(** C4: three components; the first is refreshed, the refresh of the second
    raises an error and the component ends in error, as the status view
    shows; the refresh of the third is cancelled. The command raises
    [CancelledError] and echoes no (key, error) pair: the error of the second
    component is not reported. *)
Lemma cancelled_refresh_hides_failure :
  (refresh_outcomes ex_storage ex_interrupted_batch ex_world).1
  = [ ("a", inr tt); ("b", inl (ComponentError "fail_write"));
      ("c", inl CancelledError) ] ∧
  (refresh_component_state ex_storage ex_interrupted_batch ex_interrupted_batch
     ex_world).1 = inl CancelledError ∧
  stdout (refresh_component_state ex_storage ex_interrupted_batch
            ex_interrupted_batch ex_world).2
  = [ Display true [("a", Updating); ("b", Updating); ("c", Updating)];
      Display false [("a", Success); ("b", Updating); ("c", Updating)];
      Display false [("a", Success); ("b", Error); ("c", Updating)] ].
Proof. split_and!; vm_compute; reflexivity. Qed.

(** A batch of two components the second of which fails with an exception
    that is falsy: the component ends in error, and the status view shows it
    so; the command reports no (key, error) pair, prints the closing line and
    returns, with exit code 0. *)
Example falsy_failure_not_reported :
  (refresh_outcomes ex_storage ex_quiet_batch ex_world).1
  = [("a", inr tt); ("b", inl (CustomError "Quiet" true false))] ∧
  (_refresh_components_with_display ex_storage ex_quiet_batch ex_quiet_batch
     (initial_statuses ex_quiet_batch) ex_world).1
  = inr [ ("a", {| status := Success; error := None |});
          ("b", {| status := Error;
                   error := Some (CustomError "Quiet" true false) |}) ] ∧
  (refresh_component_state ex_storage ex_quiet_batch ex_quiet_batch ex_world).1
  = inr tt ∧
  exit_code
    (refresh_component_state ex_storage ex_quiet_batch ex_quiet_batch ex_world).1 = 0 ∧
  stdout (refresh_component_state ex_storage ex_quiet_batch ex_quiet_batch ex_world).2
  = [ Display true [("a", Updating); ("b", Updating)];
      Display false [("a", Success); ("b", Updating)];
      Display false [("a", Success); ("b", Error)];
      Done ].
Proof. split_and!; vm_compute; reflexivity. Qed.


Example ex_batch_report :
  (refresh_component_state ex_storage ex_batch ex_batch_order ex_world).1
  = inl (ComponentError "fail_write") ∧
  (get_latest_defs_state_info
     (refresh_component_state ex_storage ex_batch ex_batch_order ex_world).2).1
  = inr (Some {| info_mapping := {[ "a" := {| version := "1" |};
                                     "c" := {| version := "3" |} ]} |}).
Proof. split; vm_compute; reflexivity. Qed.

(** * Further properties of the facade *)

Section FacadeExtras.
Context {S : Serdes}.

Implicit Types (w : World) (p q : path) (b : bytes).

Lemma write_bytes_other p b w q :
  q ≠ p → fs (write_bytes p b w).2 !! q = fs w !! q.
Proof.
  intros Hne. unfold write_bytes.
  destruct (node_at (fs w) (parent p)) as [[|?]|]; [|done..].
  destruct (node_at (fs w) p) as [[|?]|]; [done|..]; simpl;
    by rewrite lookup_insert_ne.
Qed.

Lemma write_bytes_raises p b w e : (write_bytes p b w).1 = inl e → (write_bytes p b w).2 = w.
Proof.
  unfold write_bytes.
  destruct (node_at (fs w) (parent p)) as [[|?]|]; [|done..].
  by destruct (node_at (fs w) p) as [[|?]|].
Qed.

Lemma download_elsewhere storage key version dst w :
  kvs (download_state_to_path storage key version dst w).2 = kvs w ∧
  ∀ p, p ≠ dst → fs (download_state_to_path storage key version dst w).2 !! p
                 = fs w !! p.
Proof.
  unfold download_state_to_path, bind, path_exists. simpl.
  destruct (negb _); [done|].
  pose proof (read_bytes_world (_get_state_path storage key version) w) as Hrd.
  destruct (read_bytes _ w) as [[e|b] wb]; simpl in Hrd; subst wb; [done|].
  destruct (fs_only_write_bytes dst b w) as [Hkvs _]. split; [done|].
  intros p Hne. by apply write_bytes_other.
Qed.

(** [download_state_to_path] writes nowhere but at the destination: the
    key-value table, the terminal and every other path are as before, and
    when it raises nothing at all has changed. *)
Theorem download_touches_destination_only storage key version dst w :
  let r := download_state_to_path storage key version dst w in
  kvs r.2 = kvs w ∧ stdout r.2 = stdout w ∧
  (∀ p, p ≠ dst → fs r.2 !! p = fs w !! p) ∧
  (∀ e, r.1 = inl e → r.2 = w).
Proof.
  unfold download_state_to_path, bind, path_exists. simpl.
  destruct (negb _); [done|].
  pose proof (read_bytes_world (_get_state_path storage key version) w) as Hrd.
  destruct (read_bytes _ w) as [[e|b] wb]; simpl in Hrd; subst wb; [done|].
  destruct (fs_only_write_bytes dst b w) as [Hkvs Hout].
  split_and!; [done|done| |].
  - intros p Hne. by apply write_bytes_other.
  - intros e. apply write_bytes_raises.
Qed.

(** A blob that is stored is downloaded as it is: the download to a
    destination that can be written returns, the destination holds the bytes
    of the blob, and the blob itself is still there (unless the destination
    is the blob's own path, which then holds the same bytes). *)
Theorem download_stored_blob storage key version dst b w :
  fs w !! _get_state_path storage key version = Some (File b) →
  node_at (fs w) (parent dst) = Some Dir →
  node_at (fs w) dst ≠ Some Dir →
  ∃ w', download_state_to_path storage key version dst w = (inr tt, w') ∧
        fs w' !! dst = Some (File b) ∧
        fs w' !! _get_state_path storage key version = Some (File b).
Proof.
  intros Hblob Hparent Hdst.
  assert (node_at (fs w) (_get_state_path storage key version) = Some (File b))
    as Hnode by done.
  assert (path_exists (_get_state_path storage key version) w = (inr true, w)) as Hex.
  { unfold path_exists. rewrite Hnode. by rewrite bool_decide_true by eauto. }
  assert (read_bytes (_get_state_path storage key version) w = (inr b, w)) as Hrd.
  { unfold read_bytes. by rewrite Hnode. }
  unfold download_state_to_path.
  rewrite (bind_inr _ _ _ _ _ Hex). cbn [negb].
  rewrite (bind_inr _ _ _ _ _ Hrd).
  unfold write_bytes. rewrite Hparent.
  exists (set_fs (<[dst:=File b]>) w). split_and!.
  - by destruct (node_at (fs w) dst) as [[|?]|].
  - simpl. by rewrite lookup_insert_eq.
  - simpl. destruct (decide (dst = _get_state_path storage key version)) as [->|Hne].
    + by rewrite lookup_insert_eq.
    + by rewrite lookup_insert_ne.
Qed.

(** Between keys and versions that are plain: an upload, whether it returns
    or raises, leaves the blobs of all other (key, version) pairs as they
    are: a version once stored is not touched by the upload of another
    one. *)
Theorem upload_keeps_other_blobs storage key version src w key' version' b :
  plain key → plain version → plain key' → plain version' →
  (key', version') ≠ (key, version) →
  fs w !! _get_state_path storage key' version' = Some (File b) →
  fs (upload_state_from_path storage key version src w).2
     !! _get_state_path storage key' version' = Some (File b).
Proof.
  intros Hk Hv Hk' Hv' Hne Hblob.
  set (q := _get_state_path storage key' version').
  set (remote_path := _get_state_path storage key version).
  assert (q ≠ remote_path) as Hq.
  { intros Heq. apply Hne. by apply (state_path_plain_inj storage). }
  unfold upload_state_from_path, bind. fold remote_path.
  pose proof (mkdir_from_preserves [] (parent remote_path) w q _ Hblob) as Hmk.
  fold (mkdir (parent remote_path)) in Hmk.
  destruct (mkdir (parent remote_path) w) as [[e|[]] wa]; [done|]. simpl in Hmk.
  pose proof (read_bytes_world src wa) as Hrd.
  destruct (read_bytes src wa) as [[e|b'] wb]; simpl in Hrd; subst wb; [done|].
  pose proof (write_bytes_other remote_path b' wa q Hq) as Hwr.
  destruct (write_bytes remote_path b' wa) as [[e|[]] wc]; simpl in Hwr.
  - simpl. by rewrite Hwr.
  - destruct (set_latest_version_fs key version wc) as [Hfs _].
    by rewrite Hfs, Hwr.
Qed.

(** An upload that returns has stored the bytes of the source under (key,
    version), and the pointer record read afterwards maps [key] to [version]
    and every other key to the entry it had before. *)
Theorem upload_publishes `{!SerdesRoundTrip S} storage key version src b w w1 :
  node_at (fs w) src = Some (File b) →
  upload_state_from_path storage key version src w = (inr tt, w1) →
  fs w1 !! _get_state_path storage key version = Some (File b) ∧
  points_to w1 key version ∧
  ∃ prior final,
    (get_latest_defs_state_info w).1 = inr prior ∧
    (get_latest_defs_state_info w1).1 = inr final ∧
    ∀ key', key' ≠ key → entries final !! key' = entries prior !! key'.
Proof.
  intros Hsrc Hup.
  apply upload_inr in Hup as (wa & b' & Hmk & Hsrc' & _ & _ & Hset).
  assert (b' = b) as ->.
  { pose proof (mkdir_keeps _ _ _ _ _ Hmk Hsrc) as Hsrc''. congruence. }
  pose proof (set_latest_version_fs key version
                (set_fs (<[_get_state_path storage key version := File b]>) wa))
    as [Hfs _].
  rewrite Hset in Hfs. simpl in Hfs.
  split; [by rewrite Hfs, lookup_insert_eq|].
  pose proof Hset as Hread.
  apply set_latest_version_read in Hread as (cur & Hcur & Hget).
  assert (kvs wa = kvs w) as Hkvs.
  { destruct (fs_only_mkdir_from [] (parent (_get_state_path storage key version)) w)
      as [Hk _]. unfold mkdir in Hmk. by rewrite Hmk in Hk. }
  assert ((get_latest_defs_state_info w).1 = inr cur) as Hprior.
  { rewrite <-Hcur. by apply get_latest_kvs. }
  split.
  - exists (add_version cur key version). rewrite Hget. split; [done|].
    destruct cur; simpl; [apply lookup_insert_eq|apply lookup_singleton_eq].
  - exists cur, (Some (add_version cur key version)). rewrite Hget.
    split_and!; [done|done|].
    intros key' Hne. unfold entries. destruct cur as [cur|]; simpl.
    + by rewrite lookup_insert_ne.
    + by rewrite lookup_singleton_ne.
Qed.

(** When the blob-write phase returns and the stored pointer record does not
    decode, the upload raises the decoder's exception after the blob has been
    written: the blob stays in the store, and the key-value table is as it
    was. *)
Theorem upload_blob_written_before_pointer storage key version src w wb e :
  write_blob storage key version src w = (inr tt, wb) →
  (get_latest_defs_state_info w).1 = inl e →
  upload_state_from_path storage key version src w = (inl e, wb) ∧
  kvs wb = kvs w ∧
  ∃ b, fs wb !! _get_state_path storage key version = Some (File b).
Proof.
  intros Hblob Hget.
  destruct (fs_only_write_blob storage key version src w) as [Hkvs _].
  rewrite Hblob in Hkvs. simpl in Hkvs.
  rewrite upload_split, (bind_inr _ _ _ _ _ Hblob).
  rewrite set_latest_version_unfold.
  rewrite (get_latest_kvs wb w Hkvs), Hget. split; [done|]. split; [done|].
  unfold write_blob in Hblob.
  apply bind_inr_inv in Hblob as ([] & wa & _ & Hblob).
  apply bind_inr_inv in Hblob as (b & wa' & Hrd & Hwr).
  pose proof (read_bytes_world src wa) as Hw. rewrite Hrd in Hw. simpl in Hw. subst wa'.
  exists b. unfold write_bytes in Hwr.
  destruct (node_at (fs wa) (parent _)) as [[|?]|]; [|done..].
  destruct (node_at (fs wa) (_get_state_path storage key version)) as [[|?]|];
    simplify_eq; simpl; by rewrite lookup_insert_eq.
Qed.

(** [set_latest_version] changes nothing but the entry of the key-value
    table under [INFO_KEY]; when it raises, which happens exactly because the
    stored record does not decode, the world is as before: an undecodable
    record is never overwritten. *)
Theorem set_latest_version_touches_pointer_only key version w :
  let r := set_latest_version key version w in
  fs r.2 = fs w ∧ stdout r.2 = stdout w ∧
  (∀ k, k ≠ INFO_KEY → kvs r.2 !! k = kvs w !! k) ∧
  (∀ e, r.1 = inl e ↔ (get_latest_defs_state_info w).1 = inl e) ∧
  (∀ e, r.1 = inl e → r.2 = w).
Proof.
  simpl. rewrite set_latest_version_unfold.
  destruct ((get_latest_defs_state_info w).1) as [e|cur]; simpl.
  - split_and!; try done. intros e'. split; congruence.
  - split_and!; try done.
    intros k Hne. by rewrite lookup_insert_ne.
Qed.

(** Two calls for the same key: the second version replaces the first, the
    result is that of the second call alone. *)
Theorem set_latest_version_overwrites `{!SerdesRoundTrip S} key version1 version2 w :
  (set_latest_version key version1 ;; set_latest_version key version2) w
  = set_latest_version key version2 w.
Proof.
  unfold bind. rewrite (set_latest_version_unfold key version1 w).
  rewrite (set_latest_version_unfold key version2 w).
  destruct ((get_latest_defs_state_info w).1) as [e|cur] eqn:Hcur; [done|].
  rewrite set_latest_version_unfold, get_latest_unfold. simpl.
  rewrite lookup_insert_eq, serdes_round_trip.
  unfold set_kvs. simpl. rewrite insert_insert_eq. do 4 f_equal.
  destruct cur as [cur|]; simpl; f_equal.
  - by rewrite insert_insert_eq.
  - by rewrite insert_singleton_eq.
Qed.

(** Calls for two distinct keys commute: made one after the other, in either
    order, they leave the same world. *)
Theorem set_latest_version_commute `{!SerdesRoundTrip S} key1 version1 key2 version2 w :
  key1 ≠ key2 →
  (set_latest_version key1 version1 ;; set_latest_version key2 version2) w
  = (set_latest_version key2 version2 ;; set_latest_version key1 version1) w.
Proof.
  intros Hne. unfold bind.
  rewrite (set_latest_version_unfold key1 version1 w).
  rewrite (set_latest_version_unfold key2 version2 w).
  destruct ((get_latest_defs_state_info w).1) as [e|cur] eqn:Hcur; [done|].
  rewrite !set_latest_version_unfold, !get_latest_unfold. simpl.
  rewrite !lookup_insert_eq, !serdes_round_trip.
  unfold set_kvs. simpl. rewrite !insert_insert_eq. do 4 f_equal.
  destruct cur as [cur|]; simpl; f_equal.
  - by apply insert_insert_ne.
  - rewrite <-!insert_empty. by apply insert_insert_ne.
Qed.

End FacadeExtras.

(** ** The store as a whole *)

Section StoreExtras.
Context {S : Serdes}.

Implicit Types (w : World) (p q : path) (b : bytes) (h : list op).

Lemma download_missing_blob storage key version dst w :
  fs w !! _get_state_path storage key version = None →
  download_state_to_path storage key version dst w =
  (inl (ValueError ("No state found for key " +:+ key +:+ " and version " +:+ version)),
   w).
Proof.
  intros Hnone. unfold download_state_to_path, bind, path_exists, node_at.
  rewrite Hnone. by rewrite bool_decide_false by by intros [? ?].
Qed.

(** [__init__] on a file system that has nothing below [base]: when it
    returns, [base] is a directory, what was there before is still there, the
    key-value table is untouched, and the store holds no blob, so that the
    download of every key and version that are plain raises the [ValueError]
    of the missing state. Constructing the store once more over the same base
    changes nothing. *)
Theorem init_fresh_store base w storage w' :
  node_at (fs w) [] = Some Dir →
  (∀ p, p ≠ [] → fs w !! (base ++ p) = None) →
  init base w = (inr storage, w') →
  base_dir storage = base ∧
  node_at (fs w') base = Some Dir ∧
  (∀ p n, fs w !! p = Some n → fs w' !! p = Some n) ∧
  kvs w' = kvs w ∧
  empty_store storage w' ∧
  (∀ key version dst,
     plain key → plain version →
     download_state_to_path storage key version dst w' =
     (inl (ValueError ("No state found for key " +:+ key +:+ " and version "
                         +:+ version)), w')) ∧
  init base w' = (inr storage, w').
Proof.
  intros Hroot Hfresh Hinit. unfold init in Hinit.
  apply bind_inr_inv in Hinit as ([] & wa & Hmk & Hret).
  unfold ret in Hret. simplify_eq.
  assert (∀ p n, fs w !! p = Some n → fs w' !! p = Some n) as Hkeep.
  { intros p n. by apply (mkdir_keeps base). }
  unfold mkdir in Hmk.
  assert (∀ r1 r2, base = r1 ++ r2 → r1 ≠ [] → fs w' !! ([] ++ r1) = Some Dir)
    as Hdirs.
  { intros r1 r2 Hr Hne. by eapply mkdir_from_dirs. }
  assert (empty_store {| base_dir := base |} w') as Hempty.
  { intros p Hp. simpl.
    destruct (fs w' !! (base ++ p)) eqn:Hq; [|done]. exfalso.
    destruct (mkdir_from_new [] base w (base ++ p))
      as (r1 & r2 & Hr & _ & Hq').
    - by apply Hfresh.
    - replace w' with (mkdir_from [] base w).2 in Hq by by rewrite Hmk.
      by rewrite Hq.
    - apply (f_equal length) in Hr, Hq'. rewrite !length_app in *.
      destruct p; [done|]. simpl in *. lia. }
  split_and!.
  - done.
  - destruct base as [|s base]; [by apply Hkeep|].
    apply (Hdirs (s :: base) []); [by rewrite app_nil_r|done].
  - done.
  - destruct (fs_only_mkdir_from [] base w) as [Hk _]. by rewrite Hmk in Hk.
  - done.
  - intros key version dst Hk Hv. apply download_missing_blob.
    rewrite state_path_plain by done. by apply Hempty.
  - unfold init, mkdir. by rewrite (bind_inr _ _ _ _ _ (mkdir_from_present [] base w' Hdirs)).
Qed.

(** An upload never turns a file into anything else. *)
Lemma upload_keeps_files storage key version src w p b :
  fs w !! p = Some (File b) →
  ∃ b', fs (upload_state_from_path storage key version src w).2 !! p = Some (File b').
Proof.
  intros Hp. set (remote_path := _get_state_path storage key version).
  unfold upload_state_from_path, bind. fold remote_path.
  pose proof (mkdir_from_preserves [] (parent remote_path) w p _ Hp) as Hmk.
  fold (mkdir (parent remote_path)) in Hmk.
  destruct (mkdir (parent remote_path) w) as [[e|[]] wa]; [by eexists|].
  simpl in Hmk.
  pose proof (read_bytes_world src wa) as Hrd.
  destruct (read_bytes src wa) as [[e|b'] wb]; simpl in Hrd; subst wb; [by eexists|].
  assert (∃ b0, fs (write_bytes remote_path b' wa).2 !! p = Some (File b0)) as Hwr.
  { destruct (decide (p = remote_path)) as [->|Hne].
    - unfold write_bytes.
      destruct (node_at (fs wa) (parent remote_path)) as [[|?]|]; [|by eexists..].
      destruct (node_at (fs wa) remote_path) as [[|?]|]; [by eexists|..];
        simpl; rewrite lookup_insert_eq; by eexists.
    - rewrite write_bytes_other by done. by eexists. }
  destruct (write_bytes remote_path b' wa) as [[e|[]] wc]; simpl in Hwr; [done|].
  destruct (set_latest_version_fs key version wc) as [Hfs _]. by rewrite Hfs.
Qed.

(** Nor does a download. *)
Lemma download_keeps_files storage key version dst w p b :
  fs w !! p = Some (File b) →
  ∃ b', fs (download_state_to_path storage key version dst w).2 !! p = Some (File b').
Proof.
  intros Hp. unfold download_state_to_path, bind, path_exists. simpl.
  destruct (negb _); [by eexists|].
  pose proof (read_bytes_world (_get_state_path storage key version) w) as Hrd.
  destruct (read_bytes _ w) as [[e|b0] wb]; simpl in Hrd; subst wb; [by eexists|].
  destruct (decide (p = dst)) as [->|Hne].
  - unfold write_bytes.
    destruct (node_at (fs w) (parent dst)) as [[|?]|]; [|by eexists..].
    destruct (node_at (fs w) dst) as [[|?]|]; [by eexists|..];
      simpl; rewrite lookup_insert_eq; by eexists.
  - rewrite write_bytes_other by done. by eexists.
Qed.

(** An upload that raises leaves the key-value table as it was. *)
Lemma upload_raises_kvs storage key version src w e :
  (upload_state_from_path storage key version src w).1 = inl e →
  kvs (upload_state_from_path storage key version src w).2 = kvs w.
Proof.
  rewrite upload_split. unfold bind.
  destruct (fs_only_write_blob storage key version src w) as [Hkvs _].
  destruct (write_blob storage key version src w) as [[e'|[]] wb]; simpl in *; [done|].
  rewrite set_latest_version_unfold.
  destruct ((get_latest_defs_state_info wb).1); simpl; [done|discriminate].
Qed.

Lemma run_op_backed `{!SerdesRoundTrip S} storage o w :
  stores_what_it_publishes storage w →
  upload_or_download storage o →
  stores_what_it_publishes storage (run_op storage o w).2.
Proof.
  intros Hinv Ho. destruct o as [k v src|k v dst|k v]; simpl in *; [| |done].
  - destruct (upload_state_from_path storage k v src w) as [[e|[]] w1] eqn:Hup.
    + (* the upload raised: the record is the one of before *)
      pose proof (upload_raises_kvs storage k v src w e) as Hkvs.
      rewrite Hup in Hkvs. specialize (Hkvs eq_refl). simpl in *.
      intros info key e' Hget Hkey.
      rewrite (get_latest_kvs w1 w Hkvs) in Hget.
      destruct (Hinv info key e' Hget Hkey) as [b Hb].
      pose proof (upload_keeps_files storage k v src w _ b Hb) as Hb'.
      by rewrite Hup in Hb'.
    + (* the upload returned *)
      pose proof Hup as Hup'.
      apply upload_inr in Hup' as (wa & b & Hmk & _ & _ & _ & Hset).
      pose proof (set_latest_version_fs k v
                    (set_fs (<[_get_state_path storage k v := File b]>) wa))
        as [Hfs _].
      rewrite Hset in Hfs. simpl in Hfs.
      apply set_latest_version_read in Hset as (cur & Hcur & Hget1).
      assert ((get_latest_defs_state_info w).1 = inr cur) as Hprior.
      { rewrite <-Hcur. apply get_latest_kvs. simpl.
        destruct (fs_only_mkdir_from [] (parent (_get_state_path storage k v)) w)
          as [Hk _]. unfold mkdir in Hmk. by rewrite Hmk in Hk. }
      simpl. intros info key e' Hget Hkey. rewrite Hget1 in Hget. simplify_eq/=.
      destruct (decide (key = k)) as [->|Hne].
      * assert (e' = {| version := v |}) as ->.
        { destruct cur; simpl in Hkey;
            rewrite ?lookup_insert_eq, ?lookup_singleton_eq in Hkey; congruence. }
        exists b. by rewrite Hfs, lookup_insert_eq.
      * destruct cur as [cur|]; simpl in Hkey.
        2:{ by rewrite lookup_singleton_ne in Hkey. }
        rewrite lookup_insert_ne in Hkey by done.
        destruct (Hinv cur key e' Hprior Hkey) as [b0 Hb0].
        pose proof (upload_keeps_files storage k v src w _ b0 Hb0) as Hb'.
        by rewrite Hup in Hb'.
  - destruct (download_elsewhere storage k v dst w) as (Hkvs & _).
    intros info key e' Hget Hkey. rewrite (get_latest_kvs _ w Hkvs) in Hget.
    destruct (Hinv info key e' Hget Hkey) as [b Hb].
    by apply (download_keeps_files storage k v dst w _ b).
Qed.

(** Write before publish, as an invariant of the store: when every entry of
    the pointer record has its blob stored, this is still so after any
    history of uploads and of downloads to paths outside the store, whether
    the calls return or raise. *)
Theorem uploads_keep_pointer_backed `{!SerdesRoundTrip S} storage h w0 :
  stores_what_it_publishes storage w0 →
  Forall (upload_or_download storage) h →
  stores_what_it_publishes storage (run_history storage h w0).
Proof.
  revert w0. induction h as [|o h IH]; intros w0 Hinv Hops; [done|].
  apply Forall_cons in Hops as [Ho Hops]. simpl.
  apply IH; [|done]. by apply run_op_backed.
Qed.

(** [set_latest_version] does not look at the blob store: called for a
    version that has no blob it returns all the same, the record then points
    at that version, and a download of it raises the [ValueError] of the
    missing state. *)
Theorem set_latest_version_without_blob `{!SerdesRoundTrip S}
    storage key version dst w prior :
  (get_latest_defs_state_info w).1 = inr prior →
  fs w !! _get_state_path storage key version = None →
  ∃ w', set_latest_version key version w = (inr tt, w') ∧
        points_to w' key version ∧
        ¬ stores_what_it_publishes storage w' ∧
        download_state_to_path storage key version dst w' =
        (inl (ValueError ("No state found for key " +:+ key +:+ " and version "
                            +:+ version)), w').
Proof.
  intros Hprior Hnone.
  destruct (set_latest_version_merge key version w prior Hprior)
    as (w' & info & Hset & Hget & Hentry & _ & Hfs).
  exists w'. split; [done|].
  assert (fs w' !! _get_state_path storage key version = None) as Hnone'
    by by rewrite Hfs.
  split_and!.
  - exists info. by rewrite Hget.
  - intros Hinv. destruct (Hinv info key {| version := version |}) as [b Hb].
    + by rewrite Hget.
    + done.
    + simpl in Hb. by rewrite Hnone' in Hb.
  - by apply download_missing_blob.
Qed.

End StoreExtras.

(** * Further properties of the orchestrator *)

Section OrchestratorExtras.
Context {S : Serdes}.

Implicit Types (w : World) (c : StateBackedComponent) (statuses : statuses_t)
  (tr : list (string * (Exception + unit))).

Lemma dict_set_keys_same {V} (k : string) (v : V) (d : list (string * V)) :
  k ∈ d.*1 → (dict_set k v d).*1 = d.*1.
Proof.
  induction d as [|[k0 v0] d IH]; simpl.
  - by intros ?%elem_of_nil.
  - intros Hin. case_decide; subst; simpl; [done|].
    apply elem_of_cons in Hin as [?|Hin]; [done|]. f_equal. by apply IH.
Qed.

Lemma dict_set_keys_new {V} (k : string) (v : V) (d : list (string * V)) :
  k ∉ d.*1 → (dict_set k v d).*1 = d.*1 ++ [k].
Proof.
  induction d as [|[k0 v0] d IH]; simpl; [done|].
  intros [Hne Hnin]%not_elem_of_cons. case_decide; [done|]. simpl. f_equal.
  by apply IH.
Qed.

Lemma snapshot_keys statuses :
  ((λ kv, (kv.1, status kv.2)) <$> statuses).*1 = statuses.*1.
Proof. rewrite <-list_fmap_compose. by apply list_fmap_ext. Qed.

Lemma refresh_state_stdout storage c w :
  stdout (refresh_state storage c w).2 = stdout w.
Proof.
  unfold refresh_state, bind.
  assert (stdout (lift_fs (write_state_to_path c) w).2 = stdout w) as Hlift.
  { unfold lift_fs. by destruct (write_state_to_path c (fs w)). }
  destruct (lift_fs (write_state_to_path c) w) as [[e|[]] wa]; simpl in Hlift; [done|].
  rewrite upload_split. unfold bind.
  destruct (fs_only_write_blob storage (get_state_key c) (new_version c)
              (state_path c) wa) as [_ Hblob].
  destruct (write_blob _ _ _ _ wa) as [[e|[]] wb]; simpl in Hblob.
  { simpl. congruence. }
  destruct (set_latest_version_fs (get_state_key c) (new_version c) wb) as [_ Hout].
  congruence.
Qed.

(** One coroutine. It does to the store what the refresh does. When the
    refresh raises an exception that is no instance of [Exception], the
    coroutine raises it: nothing is recorded and nothing is shown. Otherwise
    the coroutine returns; it has recorded under the component's own key the
    outcome of the refresh, [Success] with no error or [Error] with the
    exception raised, left the entries of all other keys alone, kept the keys
    of the dict and their order when the key was present, and shown the
    statuses once. *)
Theorem refresh_component_own_key storage c statuses w :
  let r := refresh_state storage c w in
  let rc := _refresh_component storage c statuses w in
  same_store rc.2 r.2 ∧
  (∀ e, r.1 = inl e → isinstance_Exception e = false → rc = (inl e, r.2)) ∧
  (escapes r.1 = None →
   ∃ statuses',
     rc.1 = inr statuses' ∧
     dict_get (get_state_key c) statuses' = Some (status_of r.1) ∧
     (∀ k, k ≠ get_state_key c → dict_get k statuses' = dict_get k statuses) ∧
     (get_state_key c ∈ statuses.*1 → statuses'.*1 = statuses.*1) ∧
     stdout rc.2 = stdout w ++ [Display false ((λ kv, (kv.1, status kv.2)) <$> statuses')]).
Proof.
  intros r rc. unfold rc. rewrite refresh_component_unfold. fold r. split_and!.
  - by destruct (escapes r.1).
  - intros e He Hno. unfold escapes. by rewrite He, Hno.
  - intros ->. eexists. split; [done|]. split_and!.
    + unfold record_outcome. simpl. by rewrite dict_get_set, decide_True.
    + intros k Hne. unfold record_outcome. simpl.
      by rewrite dict_get_set, decide_False.
    + intros Hin. by apply dict_set_keys_same.
    + simpl. unfold r. by rewrite refresh_state_stdout.
Qed.

Lemma initial_statuses_acc_updating (to_refresh : list StateBackedComponent)
    (d : statuses_t) :
  Forall (λ kv, status kv.2 = Updating) d →
  Forall (λ kv, status kv.2 = Updating)
    (foldl (λ d c, dict_set (get_state_key c)
                     {| status := Updating; error := None |} d) d to_refresh).
Proof.
  revert d. induction to_refresh as [|c l IH]; intros d Hd; [done|].
  simpl. apply IH. clear IH. induction d as [|[k0 v0] d IHd]; simpl.
  - by repeat constructor.
  - apply Forall_cons in Hd as [Hk0 Hd]. case_decide.
    + by constructor.
    + constructor; [done|]. by apply IHd.
Qed.

Lemma initial_statuses_updating to_refresh :
  Forall (λ kv, status kv.2 = Updating) (initial_statuses to_refresh).
Proof. by apply initial_statuses_acc_updating. Qed.

Lemma caught_cons k r tr :
  caught ((k, r) :: tr) =
  match escapes r with
  | Some _ => caught tr
  | None => (k, r) :: caught tr
  end.
Proof.
  unfold caught. rewrite filter_cons. simpl. destruct (escapes r) as [e|].
  - by rewrite decide_False.
  - by rewrite decide_True.
Qed.

Lemma caught_all tr : first_escape tr = None → caught tr = tr.
Proof.
  induction tr as [|[k r] tr IH]; [done|].
  rewrite first_escape_cons, caught_cons. destruct (escapes r); [done|].
  intros ?. f_equal. by apply IH.
Qed.

(** The views shown during the join: one per coroutine that returned, all
    over the keys of the dict, in its order. *)
Lemma gather_displays storage order statuses w wp :
  same_store w wp →
  (∀ c, c ∈ order → get_state_key c ∈ statuses.*1) →
  ∃ shows,
    stdout (gather (_refresh_component storage) order statuses w).2
    = stdout w ++ shows ∧
    length shows = length (caught (refresh_outcomes storage order wp).1) ∧
    Forall (λ x, ∃ lines, x = Display false lines ∧ lines.*1 = statuses.*1) shows.
Proof.
  revert statuses w wp. induction order as [|c order IH]; intros statuses w wp Hs Hin.
  { exists []. simpl. by rewrite app_nil_r. }
  cbn [gather refresh_outcomes]. rewrite refresh_component_unfold.
  destruct (store_only_refresh_state storage c w wp Hs) as [Hr Hs'].
  pose proof (refresh_state_stdout storage c w) as Hout0.
  destruct (refresh_state storage c wp) as [r wp1]. simpl in Hr, Hs'.
  rewrite Hr. destruct (escapes r) as [e|] eqn:Hesc.
  - destruct (IH statuses (refresh_state storage c w).2 wp1 Hs')
      as (shows & Hout & Hlen & Hall).
    { intros c' Hc'. apply Hin. by right. }
    exists shows. destruct (refresh_outcomes storage order wp1) as [tr wp2].
    simpl in *. rewrite caught_cons, Hesc. split_and!; [|done..].
    by rewrite Hout, Hout0.
  - set (statuses' := record_outcome statuses (get_state_key c, r)).
    assert (statuses'.*1 = statuses.*1) as Hkeys.
    { apply dict_set_keys_same, Hin. by left. }
    edestruct (IH statuses'
                 (_update_display statuses' false (refresh_state storage c w).2).2 wp1)
      as (shows & Hout & Hlen & Hall).
    { done. }
    { intros c' Hc'. rewrite Hkeys. apply Hin. by right. }
    exists (Display false ((λ kv, (kv.1, status kv.2)) <$> statuses') :: shows).
    cbv beta iota zeta. fold statuses'.
    destruct (gather (_refresh_component storage) order statuses' _) as [g wg].
    destruct (refresh_outcomes storage order wp1) as [tr wp2].
    simpl in *. rewrite caught_cons, Hesc. split_and!.
    + rewrite Hout, Hout0. by rewrite <-app_assoc.
    + simpl. by rewrite Hlen.
    + constructor.
      * eexists. split; [done|]. by rewrite snapshot_keys.
      * eapply Forall_impl; [exact Hall|]. intros x (lines & -> & Hl).
        exists lines. split; [done|]. by rewrite Hl.
Qed.

(** Whatever the components and the order of their turns, and whether it
    returns or raises, the command does to the file system and to the
    key-value table exactly what the refreshes of the coroutines that came to
    their end do, one after the other: it writes nothing of its own and
    undoes nothing. *)
Theorem command_acts_through_refreshes storage to_refresh order w :
  same_store (refresh_component_state storage to_refresh order w).2
             (refresh_outcomes storage order w).2.
Proof.
  destruct (command_unfold storage to_refresh order w) as (w1 & Hstore & _ & ->).
  destruct (first_escape _); [done|].
  by destruct (collect_errors _) as [|[k0 first] rest].
Qed.

(** What the command prints: the initial view, with every key updating, then
    one view per coroutine that returned; every view lists the same keys in
    the same order, so each rewrites exactly the lines of the one before.
    When no exception passed through the join there is one view per
    component, and what follows, the error report or the closing line, holds
    no view; when one did, nothing follows. *)
Theorem displays_keep_their_shape storage to_refresh order w :
  order ≡ₚ to_refresh →
  let tr := (refresh_outcomes storage order w).1 in
  ∃ lines0 shows rest,
    stdout (refresh_component_state storage to_refresh order w).2
    = stdout w ++ Display true lines0 :: shows ++ rest ∧
    lines0.*1 = (initial_statuses to_refresh).*1 ∧
    Forall (λ l, l.2 = Updating) lines0 ∧
    length shows = length (caught tr) ∧
    (first_escape tr = None → length shows = length to_refresh) ∧
    Forall (λ x, ∃ lines, x = Display false lines ∧ lines.*1 = lines0.*1) shows ∧
    Forall (λ x, ∀ initial lines, x ≠ Display initial lines) rest ∧
    (first_escape tr ≠ None → rest = []).
Proof.
  intros Hperm tr.
  destruct (command_unfold storage to_refresh order w) as (w1 & _ & Hout1 & Hcmd).
  destruct (gather_displays storage order (initial_statuses to_refresh)
              (_update_display (initial_statuses to_refresh) true w).2 w)
    as (shows & Hout & Hlen & Hall).
  { done. }
  { intros c Hc. rewrite initial_statuses_keys, <-Hperm.
    by apply list_elem_of_fmap_2. }
  rewrite <-Hout1 in Hout. simpl in Hout. fold tr in Hlen, Hcmd.
  exists ((λ kv, (kv.1, status kv.2)) <$> initial_statuses to_refresh), shows.
  assert (∀ rest w',
            stdout w' = stdout w1 ++ rest →
            stdout w' =
            stdout w ++
              Display true ((λ kv, (kv.1, status kv.2)) <$> initial_statuses to_refresh)
              :: shows ++ rest) as Hshape.
  { intros rest w' ->. rewrite Hout, <-!app_assoc. done. }
  assert (Forall (λ l : string * Status, l.2 = Updating)
            ((λ kv, (kv.1, status kv.2)) <$> initial_statuses to_refresh)) as Hupd.
  { apply Forall_fmap. eapply Forall_impl; [apply initial_statuses_updating|]. done. }
  assert (Forall (λ x, ∃ lines, x = Display false lines ∧
                         lines.*1 = ((λ kv, (kv.1, status kv.2))
                                       <$> initial_statuses to_refresh).*1) shows)
    as Hviews.
  { eapply Forall_impl; [exact Hall|]. intros x (lines & -> & Hl).
    exists lines. by rewrite snapshot_keys. }
  assert (first_escape tr = None → length shows = length to_refresh) as Hcount.
  { intros Hno. rewrite Hlen, (caught_all _ Hno). unfold tr.
    rewrite <-(length_fmap fst), refresh_outcomes_keys, length_fmap. by rewrite Hperm. }
  rewrite Hcmd. destruct (first_escape tr) as [e|].
  { exists []. split_and!; try done.
    - apply Hshape. by rewrite app_nil_r.
    - apply snapshot_keys. }
  destruct (collect_errors _) as [|[k0 first] rest] eqn:Hcoll.
  - exists [Done]. split_and!; try done.
    + by apply Hshape.
    + apply snapshot_keys.
    + by repeat constructor.
  - exists (ErrorsHeader :: ((λ ke, ErrorLine ke.1 ke.2) <$> (k0, first) :: rest)).
    split_and!; try done.
    + by apply Hshape.
    + apply snapshot_keys.
    + constructor; [done|]. apply Forall_fmap, Forall_forall. by intros [k e] _.
Qed.

End OrchestratorExtras.

Section OrchestratorOutcome.
Context {S : Serdes}.

Implicit Types (w : World) (c : StateBackedComponent) (statuses : statuses_t)
  (tr : list (string * (Exception + unit))).

(** How the command ends. It returns normally exactly when no exception
    passed through the join and no key ends in an error that is truthy, the
    last outcome reported under every key being a success or an exception
    that is falsy; it then ends its output with the closing line. When it
    raises, the exception is one that passed through the join, or else it is
    truthy and the last outcome of some key. A failure that a later success
    under the same key replaced does not count. *)
Theorem command_returns_iff_no_error_counts storage to_refresh order w :
  let r := refresh_component_state storage to_refresh order w in
  let tr := (refresh_outcomes storage order w).1 in
  (r.1 = inr tt ↔
   first_escape tr = None ∧
   ∀ k e, last_outcome k tr = Some (inl e) → exception_bool e = false) ∧
  (r.1 = inr tt → ∃ pre, stdout r.2 = pre ++ [Done]) ∧
  (∀ first, r.1 = inl first →
            first_escape tr = Some first ∨
            (first_escape tr = None ∧ exception_bool first = true ∧
             ∃ k, last_outcome k tr = Some (inl first))) ∧
  (exit_code r.1 = 0 ↔ r.1 = inr tt).
Proof.
  intros r tr. unfold r.
  destruct (command_unfold storage to_refresh order w) as (w1 & _ & _ & ->).
  fold tr. destruct (first_escape tr) as [e0|].
  { split_and!.
    - split; [done|]. by intros [? _].
    - done.
    - intros first [= <-]. by left.
    - split; [simpl; lia|done]. }
  pose proof (collect_errors_last to_refresh tr) as Hlast.
  destruct (collect_errors _) as [|[k0 first] rest]; simpl.
  - split_and!.
    + split; [|done]. intros _. split; [done|]. intros k e He.
      destruct (exception_bool e) eqn:Hb; [|done].
      assert ((k, e) ∈ []) as []%elem_of_nil. by apply Hlast.
    + intros _. by eexists.
    + intros first [=].
    + done.
  - destruct (proj1 (Hlast k0 first)) as [Hk0 Hb0]; [by left|]. split_and!.
    + split; [done|]. intros [_ Hno]. rewrite (Hno k0 first Hk0) in Hb0. done.
    + done.
    + intros first' [= <-]. right. split_and!; [done|done|by exists k0].
    + split; [lia|done].
Qed.

(** With pairwise distinct state keys: when the command returns normally,
    every component either has been refreshed, and the pointer record read
    afterwards maps its key to the version it uploaded, or has failed with
    an exception that is falsy. *)
Theorem refresh_all_published `{!SerdesRoundTrip S} storage to_refresh order w :
  NoDup (get_state_key <$> to_refresh) →
  order ≡ₚ to_refresh →
  (refresh_component_state storage to_refresh order w).1 = inr tt →
  ∀ c, c ∈ to_refresh →
       ((get_state_key c, inr tt) ∈ (refresh_outcomes storage order w).1 ∧
        points_to (refresh_component_state storage to_refresh order w).2
          (get_state_key c) (new_version c)) ∨
       (∃ e, (get_state_key c, inl e) ∈ (refresh_outcomes storage order w).1 ∧
             isinstance_Exception e = true ∧ exception_bool e = false).
Proof.
  intros Hnd Hperm Hok c Hc.
  destruct (command_unfold storage to_refresh order w) as (w1 & Hstore & _ & Hcmd).
  rewrite Hcmd in Hok |- *. clear Hcmd.
  set (tr := (refresh_outcomes storage order w).1) in *.
  destruct (first_escape tr) as [e0|] eqn:Hesc; [done|].
  pose proof (collect_errors_last to_refresh tr) as Hlast.
  destruct (collect_errors _) as [|[k0 first] rest]; [|done]. clear Hok.
  assert (tr.*1 = get_state_key <$> order) as Hkeys by apply refresh_outcomes_keys.
  assert (NoDup tr.*1) as Hndtr by by rewrite Hkeys, Hperm.
  destruct (last_outcome (get_state_key c) tr) as [[e|[]]|] eqn:Hc'.
  - right. exists e. split_and!.
    + by apply (last_outcome_elem _ _ _ Hndtr).
    + apply (proj1 (first_escape_None tr) Hesc (get_state_key c)).
      by apply (last_outcome_elem _ _ _ Hndtr).
    + destruct (exception_bool e) eqn:Hb; [|done].
      assert ((get_state_key c, e) ∈ []) as []%elem_of_nil. by apply Hlast.
  - left. apply (last_outcome_elem _ _ _ Hndtr) in Hc'. split; [done|].
    destruct (refresh_outcomes_points_to storage order w c) as (info & Hget & Hk).
    + by rewrite Hperm.
    + by rewrite Hperm.
    + done.
    + exists info. split; [|done]. rewrite <-Hget. apply get_latest_kvs.
      simpl. apply Hstore.
  - apply last_outcome_None in Hc'. destruct Hc'.
    rewrite Hkeys, Hperm. by apply list_elem_of_fmap_2.
Qed.

Lemma initial_statuses_keys_acc (to_refresh : list StateBackedComponent)
    (d : statuses_t) :
  NoDup (d.*1 ++ (get_state_key <$> to_refresh)) →
  (foldl (λ d c, dict_set (get_state_key c)
                   {| status := Updating; error := None |} d) d to_refresh).*1
  = d.*1 ++ (get_state_key <$> to_refresh).
Proof.
  revert d. induction to_refresh as [|c l IH]; intros d Hnd; simpl.
  { by rewrite app_nil_r. }
  rewrite fmap_cons in Hnd.
  assert (get_state_key c ∉ d.*1) as Hnew.
  { apply NoDup_app in Hnd as (_ & Hdis & _). intros Hin.
    apply (Hdis _ Hin). by left. }
  rewrite IH; rewrite dict_set_keys_new by done.
  - by rewrite <-app_assoc.
  - by rewrite <-app_assoc.
Qed.

Lemma foldl_record_keys_same statuses tr :
  (∀ k, k ∈ tr.*1 → k ∈ statuses.*1) →
  (foldl record_outcome statuses tr).*1 = statuses.*1.
Proof.
  revert statuses. induction tr as [|[k r] tr IH]; intros statuses Hin; [done|].
  simpl. assert ((record_outcome statuses (k, r)).*1 = statuses.*1) as Hkeys.
  { apply dict_set_keys_same, Hin. by left. }
  rewrite IH, Hkeys; [done|]. intros k' Hk'. rewrite Hkeys. apply Hin. by right.
Qed.

Lemma omap_head {A B} (f : A → option B) (l : list A) y ys :
  omap f l = y :: ys →
  ∃ l1 x l2, l = l1 ++ x :: l2 ∧ f x = Some y ∧ Forall (λ z, f z = None) l1.
Proof.
  induction l as [|a l IH]; simpl; [done|].
  destruct (f a) as [b|] eqn:Ha.
  - intros [= -> _]. by exists [], a, l.
  - intros (l1 & x & l2 & -> & Hx & Hall)%IH.
    exists (a :: l1), x, l2. split_and!; [done|done|by constructor].
Qed.

(** With pairwise distinct state keys, when every exception raised is an
    instance of [Exception]: the exception the command raises is the one of
    the first component, in the order of the list handed to the command,
    whose refresh raised an exception that is truthy; the refreshes of the
    components before it in the list returned, or raised an exception that is
    falsy. The order of the turns plays no part. *)
Theorem first_error_in_list_order storage to_refresh order w first :
  NoDup (get_state_key <$> to_refresh) →
  order ≡ₚ to_refresh →
  (∀ k e, (k, inl e) ∈ (refresh_outcomes storage order w).1 →
          isinstance_Exception e = true) →
  (refresh_component_state storage to_refresh order w).1 = inl first →
  ∃ before c after,
    to_refresh = before ++ c :: after ∧
    (get_state_key c, inl first) ∈ (refresh_outcomes storage order w).1 ∧
    exception_bool first = true ∧
    ∀ c', c' ∈ before →
          (get_state_key c', inr tt) ∈ (refresh_outcomes storage order w).1 ∨
          ∃ e, (get_state_key c', inl e) ∈ (refresh_outcomes storage order w).1 ∧
               exception_bool e = false.
Proof.
  intros Hnd Hperm Hcaught Hfail.
  destruct (command_unfold storage to_refresh order w) as (w1 & _ & _ & Hcmd).
  rewrite Hcmd in Hfail. clear Hcmd.
  set (tr := (refresh_outcomes storage order w).1) in *.
  set (statuses := foldl record_outcome (initial_statuses to_refresh) tr) in *.
  apply first_escape_None in Hcaught. rewrite Hcaught in Hfail.
  assert (tr.*1 = get_state_key <$> order) as Hkeys by apply refresh_outcomes_keys.
  assert (NoDup tr.*1) as Hndtr by by rewrite Hkeys, Hperm.
  assert (NoDup statuses.*1) as Hnds.
  { apply foldl_record_NoDup, initial_statuses_NoDup. }
  assert (statuses.*1 = get_state_key <$> to_refresh) as Hskeys.
  { unfold statuses. rewrite foldl_record_keys_same.
    - by apply (initial_statuses_keys_acc to_refresh []).
    - intros k Hk. rewrite initial_statuses_keys, <-Hperm, <-Hkeys. done. }
  destruct (collect_errors statuses) as [|[k0 e0] rest] eqn:Hcoll; [done|].
  simpl in Hfail. simplify_eq.
  assert ((k0, inl first) ∈ tr ∧ exception_bool first = true) as [Hfirst Htruthy].
  { rewrite (last_outcome_elem _ _ _ Hndtr).
    apply (collect_errors_last to_refresh). fold statuses. rewrite Hcoll. by left. }
  apply omap_head in Hcoll as (s1 & [k1 st1] & s2 & Hsplit & Hf & Hnone).
  simpl in Hf.
  assert (k1 = k0) as ->.
  { destruct (status st1), (error st1) as [e1|]; try done.
    destruct (exception_bool e1); by simplify_eq. }
  assert (∀ k', k' ∈ s1.*1 →
                (k', inr tt) ∈ tr ∨ ∃ e, (k', inl e) ∈ tr ∧ exception_bool e = false)
    as Hbefore.
  { intros k' Hk'.
    assert (k' ∈ tr.*1) as Hran.
    { rewrite Hkeys, Hperm, <-Hskeys, Hsplit, fmap_app. apply elem_of_app. by left. }
    apply list_elem_of_fmap in Hk' as ([k'' st'] & Hkey & Hin'). simpl in Hkey.
    subst k''.
    assert ((k', st') ∈ statuses) as Hin.
    { rewrite Hsplit. apply elem_of_app. by left. }
    rewrite (dict_get_elem _ _ _ Hnds) in Hin. unfold statuses in Hin.
    rewrite foldl_record_get in Hin.
    destruct (last_outcome k' tr) as [[e|[]]|] eqn:Hlast.
    - right. exists e. split; [by apply (last_outcome_elem _ _ _ Hndtr)|].
      simplify_eq/=. rewrite Forall_forall in Hnone.
      specialize (Hnone _ Hin'). simpl in Hnone.
      by destruct (exception_bool e).
    - left. by apply (last_outcome_elem _ _ _ Hndtr).
    - by apply last_outcome_None in Hlast. }
  rewrite Hsplit, fmap_app, fmap_cons in Hskeys. simpl in Hskeys.
  symmetry in Hskeys.
  apply fmap_app_inv in Hskeys as (before & rest' & Hb & Hr & ->).
  symmetry in Hr. apply fmap_cons_inv in Hr as (c & after & Hc & Ha & ->).
  exists before, c, after. split; [done|]. split; [by rewrite <-Hc|].
  split; [done|].
  intros c' Hc'. apply Hbefore. rewrite Hb. by apply list_elem_of_fmap_2.
Qed.

End OrchestratorOutcome.

(** * The further properties at the examples *)

Lemma download_stored_blob_witness :
  fs ex_world_uploaded !! _get_state_path ex_storage "k" "v1"
  = Some (File [x01; x02]) ∧
  ∃ w', download_state_to_path ex_storage "k" "v1" ["dst"] ex_world_uploaded
        = (inr tt, w') ∧
        fs w' !! ["dst"] = Some (File [x01; x02]) ∧
        fs w' !! _get_state_path ex_storage "k" "v1" = Some (File [x01; x02]).
Proof.
  assert (fs ex_world_uploaded !! _get_state_path ex_storage "k" "v1"
          = Some (File [x01; x02])) as Hblob by (vm_compute; reflexivity).
  split; [exact Hblob|].
  apply (download_stored_blob ex_storage "k" "v1" ["dst"] [x01; x02]
           ex_world_uploaded Hblob).
  - reflexivity.
  - vm_compute. discriminate.
Defined.

Lemma upload_keeps_other_blobs_witness :
  plain "k" ∧ plain "v2" ∧ plain "v1" ∧
  ("k", "v1") ≠ ("k", "v2") ∧
  fs ex_world_uploaded !! _get_state_path ex_storage "k" "v1"
  = Some (File [x01; x02]) ∧
  fs (upload_state_from_path ex_storage "k" "v2" ["src"] ex_world_uploaded).2
     !! _get_state_path ex_storage "k" "v1" = Some (File [x01; x02]).
Proof.
  assert (plain "k") as Hk by (apply plain_example; vm_compute; reflexivity).
  assert (plain "v1") as Hv1 by (apply plain_example; vm_compute; reflexivity).
  assert (plain "v2") as Hv2 by (apply plain_example; vm_compute; reflexivity).
  assert (("k", "v1") ≠ ("k", "v2")) as Hne by discriminate.
  assert (fs ex_world_uploaded !! _get_state_path ex_storage "k" "v1"
          = Some (File [x01; x02])) as Hblob by (vm_compute; reflexivity).
  split; [exact Hk|]. split; [exact Hv2|]. split; [exact Hv1|].
  split; [exact Hne|]. split; [exact Hblob|].
  exact (upload_keeps_other_blobs ex_storage "k" "v2" ["src"] ex_world_uploaded
           "k" "v1" [x01; x02] Hk Hv2 Hk Hv1 Hne Hblob).
Defined.

Lemma upload_publishes_witness :
  node_at (fs ex_world) ["src"] = Some (File [x01; x02]) ∧
  fs ex_world_uploaded !! _get_state_path ex_storage "k" "v1"
  = Some (File [x01; x02]) ∧
  points_to ex_world_uploaded "k" "v1" ∧
  ∃ prior final,
    (get_latest_defs_state_info ex_world).1 = inr prior ∧
    (get_latest_defs_state_info ex_world_uploaded).1 = inr final ∧
    ∀ key', key' ≠ "k" → entries final !! key' = entries prior !! key'.
Proof.
  assert (node_at (fs ex_world) ["src"] = Some (File [x01; x02])) as Hsrc
    by (vm_compute; reflexivity).
  split; [exact Hsrc|].
  exact (@upload_publishes list_serdes list_serdes_round_trip ex_storage "k" "v1"
           ["src"] [x01; x02] ex_world ex_world_uploaded Hsrc ex_world_uploaded_run).
Defined.

Lemma upload_blob_written_before_pointer_witness :
  let wb := (write_blob ex_storage "k" "v3" ["src"] ex_world_corrupt_src).2 in
  write_blob ex_storage "k" "v3" ["src"] ex_world_corrupt_src = (inr tt, wb) ∧
  (get_latest_defs_state_info ex_world_corrupt_src).1
  = inl (DeserializationError "duplicate key") ∧
  upload_state_from_path ex_storage "k" "v3" ["src"] ex_world_corrupt_src
  = (inl (DeserializationError "duplicate key"), wb) ∧
  kvs wb = kvs ex_world_corrupt_src ∧
  ∃ b, fs wb !! _get_state_path ex_storage "k" "v3" = Some (File b).
Proof.
  intros wb.
  assert (write_blob ex_storage "k" "v3" ["src"] ex_world_corrupt_src = (inr tt, wb))
    as Hblob.
  { apply run_eq. vm_compute. reflexivity. }
  assert ((get_latest_defs_state_info ex_world_corrupt_src).1
          = inl (DeserializationError "duplicate key")) as Hget
    by (vm_compute; reflexivity).
  split; [exact Hblob|]. split; [exact Hget|].
  exact (upload_blob_written_before_pointer ex_storage "k" "v3" ["src"]
           ex_world_corrupt_src wb _ Hblob Hget).
Defined.

Lemma set_latest_version_overwrites_witness :
  (set_latest_version "k" "v1" ;; set_latest_version "k" "v2") ex_world
  = set_latest_version "k" "v2" ex_world.
Proof.
  exact (@set_latest_version_overwrites list_serdes list_serdes_round_trip
           "k" "v1" "v2" ex_world).
Defined.

Lemma set_latest_version_commute_witness :
  "a" ≠ "b" ∧
  (set_latest_version "a" "1" ;; set_latest_version "b" "2") ex_world_uploaded
  = (set_latest_version "b" "2" ;; set_latest_version "a" "1") ex_world_uploaded.
Proof.
  assert ("a" ≠ "b") as Hne by discriminate.
  split; [exact Hne|].
  exact (@set_latest_version_commute list_serdes list_serdes_round_trip
           "a" "1" "b" "2" ex_world_uploaded Hne).
Defined.

Lemma init_fresh_store_witness :
  let storage := {| base_dir := ["base"] |} in
  let w' := (init ["base"] ex_world_bare).2 in
  node_at (fs ex_world_bare) [] = Some Dir ∧
  (∀ p, p ≠ [] → fs ex_world_bare !! (["base"] ++ p) = None) ∧
  init ["base"] ex_world_bare = (inr storage, w') ∧
  base_dir storage = ["base"] ∧
  node_at (fs w') ["base"] = Some Dir ∧
  (∀ p n, fs ex_world_bare !! p = Some n → fs w' !! p = Some n) ∧
  kvs w' = kvs ex_world_bare ∧
  empty_store storage w' ∧
  (∀ key version dst,
     plain key → plain version →
     download_state_to_path storage key version dst w' =
     (inl (ValueError ("No state found for key " +:+ key +:+ " and version "
                         +:+ version)), w')) ∧
  init ["base"] w' = (inr storage, w').
Proof.
  intros storage w'.
  assert (node_at (fs ex_world_bare) [] = Some Dir) as Hroot
    by (vm_compute; reflexivity).
  assert (∀ p, p ≠ [] → fs ex_world_bare !! (["base"] ++ p) = None) as Hfresh.
  { intros p Hp. simpl. rewrite lookup_insert_ne by discriminate.
    by rewrite lookup_singleton_ne by discriminate. }
  assert (init ["base"] ex_world_bare = (inr storage, w')) as Hinit.
  { apply run_eq. vm_compute. reflexivity. }
  split; [exact Hroot|]. split; [exact Hfresh|]. split; [exact Hinit|].
  exact (init_fresh_store ["base"] ex_world_bare storage w' Hroot Hfresh Hinit).
Defined.

Lemma uploads_keep_pointer_backed_witness :
  stores_what_it_publishes ex_storage ex_world ∧
  Forall (upload_or_download ex_storage) ex_upload_history ∧
  stores_what_it_publishes ex_storage
    (run_history ex_storage ex_upload_history ex_world).
Proof.
  assert (stores_what_it_publishes ex_storage ex_world) as Hinv.
  { intros info key e Hget _. vm_compute in Hget. discriminate. }
  assert (Forall (upload_or_download ex_storage) ex_upload_history) as Hops.
  { repeat constructor. simpl. intros [k Hk]. discriminate. }
  split; [exact Hinv|]. split; [exact Hops|].
  exact (@uploads_keep_pointer_backed list_serdes list_serdes_round_trip
           ex_storage ex_upload_history ex_world Hinv Hops).
Defined.

Example ex_upload_history_record :
  (get_latest_defs_state_info
     (run_history ex_storage ex_upload_history ex_world)).1
  = inr (Some {| info_mapping := {[ "k" := {| version := "v1" |} ]} |}).
Proof. vm_compute. reflexivity. Qed.

Lemma set_latest_version_without_blob_witness :
  (get_latest_defs_state_info ex_world).1 = inr None ∧
  fs ex_world !! _get_state_path ex_storage "k" "v9" = None ∧
  ∃ w', set_latest_version "k" "v9" ex_world = (inr tt, w') ∧
        points_to w' "k" "v9" ∧
        ¬ stores_what_it_publishes ex_storage w' ∧
        download_state_to_path ex_storage "k" "v9" ["dst"] w' =
        (inl (ValueError ("No state found for key " +:+ "k" +:+ " and version "
                            +:+ "v9")), w').
Proof.
  assert ((get_latest_defs_state_info ex_world).1 = inr None) as Hprior
    by (vm_compute; reflexivity).
  assert (fs ex_world !! _get_state_path ex_storage "k" "v9" = None) as Hnone
    by (vm_compute; reflexivity).
  split; [exact Hprior|]. split; [exact Hnone|].
  exact (@set_latest_version_without_blob list_serdes list_serdes_round_trip
           ex_storage "k" "v9" ["dst"] ex_world None Hprior Hnone).
Defined.

Lemma displays_keep_their_shape_witness :
  ex_batch_order ≡ₚ ex_batch ∧
  let tr := (refresh_outcomes ex_storage ex_batch_order ex_world).1 in
  ∃ lines0 shows rest,
    stdout (refresh_component_state ex_storage ex_batch ex_batch_order ex_world).2
    = stdout ex_world ++ Display true lines0 :: shows ++ rest ∧
    lines0.*1 = (initial_statuses ex_batch).*1 ∧
    Forall (λ l, l.2 = Updating) lines0 ∧
    length shows = length (caught tr) ∧
    (first_escape tr = None → length shows = length ex_batch) ∧
    Forall (λ x, ∃ lines, x = Display false lines ∧ lines.*1 = lines0.*1) shows ∧
    Forall (λ x, ∀ initial lines, x ≠ Display initial lines) rest ∧
    (first_escape tr ≠ None → rest = []).
Proof.
  split; [exact ex_batch_order_perm|].
  exact (displays_keep_their_shape ex_storage ex_batch ex_batch_order ex_world
           ex_batch_order_perm).
Defined.

Example ex_batch_stdout :
  stdout (refresh_component_state ex_storage ex_batch ex_batch_order ex_world).2
  = [ Display true [("a", Updating); ("b", Updating); ("c", Updating)];
      Display false [("a", Updating); ("b", Updating); ("c", Success)];
      Display false [("a", Success); ("b", Updating); ("c", Success)];
      Display false [("a", Success); ("b", Error); ("c", Success)];
      ErrorsHeader;
      ErrorLine "b" (ComponentError "fail_write") ].
Proof. vm_compute. reflexivity. Qed.

Lemma ex_good_order_perm : ex_good_order ≡ₚ ex_good_batch.
Proof. apply Permutation_swap. Defined.

Lemma refresh_all_published_witness :
  NoDup (get_state_key <$> ex_good_batch) ∧
  ex_good_order ≡ₚ ex_good_batch ∧
  (refresh_component_state ex_storage ex_good_batch ex_good_order ex_world).1
  = inr tt ∧
  ∀ c, c ∈ ex_good_batch →
       ((get_state_key c, inr tt)
          ∈ (refresh_outcomes ex_storage ex_good_order ex_world).1 ∧
        points_to
          (refresh_component_state ex_storage ex_good_batch ex_good_order ex_world).2
          (get_state_key c) (new_version c)) ∨
       (∃ e, (get_state_key c, inl e)
               ∈ (refresh_outcomes ex_storage ex_good_order ex_world).1 ∧
             isinstance_Exception e = true ∧ exception_bool e = false).
Proof.
  assert (NoDup (get_state_key <$> ex_good_batch)) as Hnd.
  { apply (bool_decide_unpack _). vm_compute. exact I. }
  assert ((refresh_component_state ex_storage ex_good_batch ex_good_order
             ex_world).1 = inr tt) as Hok by (vm_compute; reflexivity).
  split; [exact Hnd|]. split; [exact ex_good_order_perm|]. split; [exact Hok|].
  exact (@refresh_all_published list_serdes list_serdes_round_trip ex_storage
           ex_good_batch ex_good_order ex_world Hnd ex_good_order_perm Hok).
Defined.

Lemma ex_two_failures_perm : ex_two_failures_order ≡ₚ ex_two_failures.
Proof.
  unfold ex_two_failures_order, ex_two_failures.
  etrans; [apply Permutation_swap|]. apply perm_skip, Permutation_swap.
Defined.

Lemma first_error_in_list_order_witness :
  NoDup (get_state_key <$> ex_two_failures) ∧
  ex_two_failures_order ≡ₚ ex_two_failures ∧
  (∀ k e, (k, inl e)
            ∈ (refresh_outcomes ex_storage ex_two_failures_order ex_world).1 →
          isinstance_Exception e = true) ∧
  (refresh_component_state ex_storage ex_two_failures ex_two_failures_order
     ex_world).1 = inl (ComponentError "b failed") ∧
  ∃ before c after,
    ex_two_failures = before ++ c :: after ∧
    (get_state_key c, inl (ComponentError "b failed"))
      ∈ (refresh_outcomes ex_storage ex_two_failures_order ex_world).1 ∧
    exception_bool (ComponentError "b failed") = true ∧
    ∀ c', c' ∈ before →
          (get_state_key c', inr tt)
            ∈ (refresh_outcomes ex_storage ex_two_failures_order ex_world).1 ∨
          ∃ e, (get_state_key c', inl e)
                 ∈ (refresh_outcomes ex_storage ex_two_failures_order ex_world).1 ∧
               exception_bool e = false.
Proof.
  assert (NoDup (get_state_key <$> ex_two_failures)) as Hnd.
  { apply (bool_decide_unpack _). vm_compute. exact I. }
  assert ((refresh_outcomes ex_storage ex_two_failures_order ex_world).1
          = [ ("c", inl (ComponentError "c failed"));
              ("a", inl (CustomError "Quiet" true false));
              ("b", inl (ComponentError "b failed")) ])
    as Htr by (vm_compute; reflexivity).
  assert (∀ k e, (k, inl e)
                   ∈ (refresh_outcomes ex_storage ex_two_failures_order ex_world).1 →
                 isinstance_Exception e = true) as Hcaught.
  { rewrite Htr. intros k e Hin.
    apply elem_of_cons in Hin as [[= _ ->]|Hin]; [reflexivity|].
    apply elem_of_cons in Hin as [[= _ ->]|Hin]; [reflexivity|].
    apply elem_of_cons in Hin as [[= _ ->]|Hin]; [reflexivity|].
    inversion Hin. }
  assert ((refresh_component_state ex_storage ex_two_failures ex_two_failures_order
             ex_world).1 = inl (ComponentError "b failed")) as Hfail
    by (vm_compute; reflexivity).
  split; [exact Hnd|]. split; [exact ex_two_failures_perm|]. split; [exact Hcaught|].
  split; [exact Hfail|].
  exact (first_error_in_list_order ex_storage ex_two_failures ex_two_failures_order
           ex_world (ComponentError "b failed") Hnd ex_two_failures_perm Hcaught
           Hfail).
Defined.

(** * The schema file *)

Section SchemaTheorems.
Context {S : Serdes}.

Implicit Types (w : World) (p q : path) (b : bytes).

Lemma write_bytes_written p b w w' :
  write_bytes p b w = (inr tt, w') → w' = set_fs (<[ p := File b ]>) w.
Proof.
  unfold write_bytes.
  destruct (node_at (fs w) (parent p)) as [[|?]|]; [|done..].
  destruct (node_at (fs w) p) as [[|?]|]; by intros [=].
Qed.

Lemma node_at_insert_ne (f : gmap path node) p q n :
  p ≠ q → node_at (<[ q := n ]> f) p = node_at f p.
Proof. intros Hne. unfold node_at. by rewrite lookup_insert_ne. Qed.

Lemma snoc_longer (p : path) s r : p ≠ p ++ s :: r.
Proof.
  intros Heq. apply (f_equal length) in Heq. rewrite length_app in Heq.
  simpl in Heq. lia.
Qed.

(** The world after the default run: the folder made when absent, then the
    file written. *)
Lemma generate_schema_default_run dg_context w :
  let folder := root_path dg_context ++ [DEFAULT_SCHEMA_FOLDER_NAME] in
  let file := folder ++ ["schema.json"] in
  node_at (fs w) (root_path dg_context) = Some Dir →
  (∀ b, fs w !! folder ≠ Some (File b)) →
  fs w !! file ≠ Some Dir →
  _generate_component_schema dg_context None w =
  (inr file,
   set_fs (<[file := File (components_schema_json dg_context)]>)
     (match fs w !! folder with
      | None => set_fs (<[folder := Dir]>) w
      | Some _ => w
      end)).
Proof.
  intros folder file Hroot Hfolder Hfile.
  unfold _generate_component_schema. fold folder. fold file.
  assert (mkdir_exist_ok folder w =
          (inr tt, match fs w !! folder with
                   | None => set_fs (<[folder := Dir]>) w
                   | Some _ => w
                   end)) as Hmk.
  { unfold mkdir_exist_ok, node_at.
    destruct (fs w !! folder) as [[|b]|] eqn:Hf; [done|by destruct (Hfolder b)|].
    unfold folder at 1. rewrite parent_snoc. unfold node_at in Hroot.
    by rewrite Hroot. }
  rewrite bind_assoc, (bind_inr _ _ _ _ _ Hmk).
  unfold bind at 1, ret at 1. unfold write_text, write_bytes, bind, ret, node_at.
  unfold file at 1. rewrite parent_snoc.
  destruct (fs w !! folder) as [[|b]|] eqn:Hf; [|by destruct (Hfolder b)|].
  - rewrite Hf. by destruct (fs w !! file) as [[|?]|].
  - simpl. rewrite lookup_insert_eq, lookup_insert_ne by apply snoc_longer.
    by destruct (fs w !! file) as [[|?]|].
Qed.

(** Without an output path, on a root that is a directory: when the [.dg]
    folder is absent or a directory and [schema.json] is not a directory, the
    function returns the path [root/.dg/schema.json]; the folder is then a
    directory, the file holds the schema text, nothing else has changed, and
    a second run returns the same path and changes nothing. *)
Theorem generate_schema_default dg_context w :
  let folder := root_path dg_context ++ [DEFAULT_SCHEMA_FOLDER_NAME] in
  let file := folder ++ ["schema.json"] in
  node_at (fs w) (root_path dg_context) = Some Dir →
  (∀ b, fs w !! folder ≠ Some (File b)) →
  fs w !! file ≠ Some Dir →
  ∃ w', _generate_component_schema dg_context None w = (inr file, w') ∧
        fs w' !! folder = Some Dir ∧
        fs w' !! file = Some (File (components_schema_json dg_context)) ∧
        (∀ p, p ≠ folder → p ≠ file → fs w' !! p = fs w !! p) ∧
        kvs w' = kvs w ∧
        _generate_component_schema dg_context None w' = (inr file, w').
Proof.
  intros folder file Hroot Hfolder Hfile.
  pose proof (generate_schema_default_run dg_context w Hroot Hfolder Hfile) as Hrun.
  fold folder in Hrun. fold file in Hrun.
  set (wa := match fs w !! folder with
             | None => set_fs (<[folder := Dir]>) w
             | Some _ => w
             end) in *.
  set (w' := set_fs (<[file := File (components_schema_json dg_context)]>) wa) in *.
  assert (folder ≠ file) as Hdiff by apply snoc_longer.
  assert (fs wa !! folder = Some Dir) as Hdir.
  { unfold wa. destruct (fs w !! folder) as [[|b]|] eqn:Hf;
      [done|by destruct (Hfolder b)|].
    simpl. by rewrite lookup_insert_eq. }
  assert (fs w' !! folder = Some Dir) as Hdir'.
  { unfold w'. simpl. by rewrite lookup_insert_ne. }
  assert (fs w' !! file = Some (File (components_schema_json dg_context))) as Hfile'.
  { unfold w'. simpl. by rewrite lookup_insert_eq. }
  exists w'. split; [done|]. split_and!; [done|done| | |].
  - intros p Hp1 Hp2. unfold w'. simpl. rewrite lookup_insert_ne by done.
    unfold wa. destruct (fs w !! folder); [done|]. simpl. by rewrite lookup_insert_ne.
  - unfold w', wa. by destruct (fs w !! folder).
  - rewrite (generate_schema_default_run dg_context w').
    + fold folder. fold file. rewrite Hdir'. f_equal.
      destruct w' as [f' k' o'] eqn:Hw'. unfold set_fs. simpl in *. f_equal.
      by apply insert_id.
    + unfold w'. simpl. rewrite node_at_insert_ne.
      2:{ unfold file, folder. rewrite <-app_assoc. apply snoc_longer. }
      unfold wa. destruct (fs w !! folder); [done|]. simpl.
      rewrite node_at_insert_ne; [done|]. apply snoc_longer.
    + intros b. fold folder. by rewrite Hdir'.
    + fold folder. fold file. by rewrite Hfile'.
Qed.

(** Without an output path, the failures of the folder: when the folder is
    absent and the root is not there the function raises
    [FileNotFoundError] ([mkdir] is called without [parents]); when the
    folder's path is a file it raises [FileExistsError]; in both cases
    nothing has changed. *)
Theorem generate_schema_default_errors dg_context w :
  let folder := root_path dg_context ++ [DEFAULT_SCHEMA_FOLDER_NAME] in
  (fs w !! folder = None → node_at (fs w) (root_path dg_context) = None →
   _generate_component_schema dg_context None w = (inl FileNotFoundError, w)) ∧
  (∀ b, fs w !! folder = Some (File b) →
        _generate_component_schema dg_context None w = (inl FileExistsError, w)).
Proof.
  intros folder. split.
  - intros Hf Hroot. unfold _generate_component_schema. fold folder.
    rewrite bind_assoc. apply bind_inl. unfold mkdir_exist_ok, node_at.
    rewrite Hf. unfold folder. rewrite parent_snoc.
    unfold node_at in Hroot. by rewrite Hroot.
  - intros b Hf. unfold _generate_component_schema. fold folder.
    rewrite bind_assoc. apply bind_inl. unfold mkdir_exist_ok, node_at.
    by rewrite Hf.
Qed.

(** With an output path the default folder plays no part: the function
    writes at that path only, returns it when the write went through (the
    file then holds the schema text), and when it raises nothing has
    changed. *)
Theorem generate_schema_explicit dg_context p w :
  let r := _generate_component_schema dg_context (Some p) w in
  (∀ q, q ≠ p → fs r.2 !! q = fs w !! q) ∧
  kvs r.2 = kvs w ∧
  (∀ e, r.1 = inl e → r.2 = w) ∧
  (∀ p', r.1 = inr p' →
         p' = p ∧ fs r.2 !! p = Some (File (components_schema_json dg_context))).
Proof.
  unfold _generate_component_schema, write_text, bind, ret. simpl.
  pose proof (write_bytes_other p (components_schema_json dg_context) w) as Hother.
  pose proof (write_bytes_raises p (components_schema_json dg_context) w) as Hraise.
  pose proof (write_bytes_written p (components_schema_json dg_context) w) as Hwr.
  destruct (fs_only_write_bytes p (components_schema_json dg_context) w) as [Hkvs _].
  destruct (write_bytes p (components_schema_json dg_context) w) as [[e|[]] w'];
    simpl in *.
  - split_and!; [done|done| |done]. intros e' _. by apply (Hraise e).
  - split_and!; [done|done|done|]. intros p' [= <-]. split; [done|].
    rewrite (Hwr w' eq_refl). simpl. by rewrite lookup_insert_eq.
Qed.

End SchemaTheorems.

(** * [inspect-component] *)

Section InspectTheorems.
Context {Key Schema : Type}.
Variable from_typename : string → Exception + Key.
Variable missing_message : string → string.
Variable schema_truthy : Schema → bool.
Variable json_dumps_indent_4 : Schema → string.

Local Abbreviation inspect :=
  (inspect_component_type_command from_typename missing_message schema_truthy
     json_dumps_indent_4).

(** The three ways the command ends without echoing anything, and their
    order. A string that is no type name makes [from_typename] raise, and the
    exception ends the command before the registry is asked, whatever the
    flags. For a type name: a type that is not registered is reported through
    [exit_with_error], whatever the flags; for a registered type, more than
    one flag is refused through [exit_with_error]. In every other case the
    command echoes at least one line. *)
Theorem inspect_exits registry component_type d s c :
  (∀ e, from_typename component_type = inl e →
        inspect registry component_type d s c = inl (uncaught e)) ∧
  (∀ key, from_typename component_type = inr key →
     (registry key = None →
      inspect registry component_type d s c =
      inl (exit_with_error (missing_message component_type))) ∧
     (is_Some (registry key) →
      1 < flag_sum d s c →
      inspect registry component_type d s c =
      inl (exit_with_error
             "Only one of --description, --scaffold-params-schema, and --component-schema can be specified.")) ∧
     (is_Some (registry key) →
      flag_sum d s c ≤ 1 →
      ∃ lines, inspect registry component_type d s c = inr lines ∧ lines ≠ [])).
Proof.
  unfold inspect_component_type_command. split.
  { by intros e ->. }
  intros key ->. split_and!.
  - by intros ->.
  - intros [e ->] Hsum. by rewrite decide_True.
  - intros [e ->] Hsum. rewrite decide_False by lia.
    destruct d; [by eexists|]. destruct s; [by eexists|]. destruct c; by eexists.
Qed.

(** The output for a registered type. With exactly one flag the command
    echoes exactly one line. With no flag it echoes the type name and then,
    for each of the description, the scaffold params schema and the component
    schema that is present and non-empty, a header and the content: one line
    plus two per such field. *)
Theorem inspect_output_shape registry component_type key entry d s c :
  from_typename component_type = inr key →
  registry key = Some entry →
  (flag_sum d s c = 1 →
   ∃ line, inspect registry component_type d s c = inr [line]) ∧
  (flag_sum d s c = 0 →
   ∃ sections,
     inspect registry component_type d s c = inr (component_type :: sections) ∧
     length sections =
     2 * (Nat.b2n (str_truthy (EntrySnap.description entry))
          + Nat.b2n (opt_schema_truthy schema_truthy (EntrySnap.scaffolder_schema entry))
          + Nat.b2n (opt_schema_truthy schema_truthy (EntrySnap.component_schema entry)))).
Proof.
  intros Hkey Hentry. unfold inspect_component_type_command.
  rewrite Hkey, Hentry. split.
  - intros Hsum. rewrite decide_False by lia.
    destruct d; [by eexists|]. destruct s; [by eexists|].
    destruct c; [by eexists|]. done.
  - intros Hsum. rewrite decide_False by lia.
    destruct d, s, c; try done. eexists. split; [done|].
    rewrite !length_app.
    destruct entry as [[[|a desc]|] [sc|] [co|]]; simpl;
      repeat (destruct (schema_truthy _)); simpl; lia.
Qed.

End InspectTheorems.

(** * Run events *)

Section RunEventsTheorems.
Variable str_upper str_lower str_strip : string → string.
Variable str_split_comma : string → list string.
Variable str_in : string → string → bool.
Variable str_of_nat : nat → string.

Lemma foldl_append_filter {A} (P : A → bool) (acc l : list A) :
  foldl (λ filtered x, if P x then filtered ++ [x] else filtered) acc l
  = acc ++ filter (λ x, P x) l.
Proof.
  revert acc. induction l as [|x l IH]; intros acc; simpl.
  { by rewrite app_nil_r. }
  rewrite IH, filter_cons. destruct (P x) eqn:HP.
  - rewrite decide_True by done. by rewrite <-app_assoc.
  - by rewrite decide_False by (by intros ?).
Qed.

Lemma filter_by_type_filter events a rest :
  _filter_events_by_type str_upper str_strip str_split_comma events (Some (String a rest))
  = filter (λ e, type_matches str_upper
                   ((λ t, str_upper (str_strip t)) <$> str_split_comma (String a rest)) e)
      events.
Proof. unfold _filter_events_by_type. by rewrite foldl_append_filter. Qed.

Lemma filter_by_step_filter events a rest :
  _filter_events_by_step str_lower str_in events (Some (String a rest))
  = filter (λ e, step_matches str_lower str_in (String a rest) e) events.
Proof. unfold _filter_events_by_step. by rewrite foldl_append_filter. Qed.

(** [_filter_events_by_type] with a filter that is given and not empty: the
    result keeps, in their order, exactly the events whose [eventType] is a
    non-empty string that, upper-cased, is one of the requested types (each
    stripped and upper-cased); events without an [eventType] are dropped; and
    filtering the result again changes nothing. Without a filter, or with the
    empty string, the events are returned as they are. *)
Theorem filter_events_by_type_spec events a rest :
  let event_type := String a rest in
  let types := (λ t, str_upper (str_strip t)) <$> str_split_comma event_type in
  let by_type := _filter_events_by_type str_upper str_strip str_split_comma in
  by_type events (Some event_type) `sublist_of` events ∧
  (∀ e, e ∈ by_type events (Some event_type) ↔
        e ∈ events ∧ ∃ v, eventType e = Some v ∧ v ≠ "" ∧ str_upper v ∈ types) ∧
  by_type (by_type events (Some event_type)) (Some event_type)
  = by_type events (Some event_type) ∧
  by_type events None = events ∧ by_type events (Some "") = events.
Proof.
  intros event_type types by_type. unfold by_type, event_type.
  rewrite !filter_by_type_filter. fold event_type. fold types. split_and!.
  - apply sublist_filter.
  - intros e. rewrite list_elem_of_filter. unfold type_matches. split.
    + intros [Hm He]. split; [done|].
      destruct (eventType e) as [v|]; [|done]. exists v.
      apply Is_true_true, andb_true_iff in Hm as [Hv Hin].
      split_and!; [done|by destruct v|by apply bool_decide_eq_true in Hin].
    + intros [He (v & -> & Hv & Hin)]. split; [|done].
      apply Is_true_true, andb_true_iff. split; [by destruct v|].
      by apply bool_decide_eq_true.
  - by rewrite list_filter_filter_l.
  - done.
  - done.
Qed.

(** The filtering of the command, by type and then by step: the result
    keeps, in their order, exactly the events that pass each filter that is
    given (a step filter passes the events whose [stepKey] is a non-empty
    string containing the filter, both lower-cased); and the two filters can
    be applied in either order. *)
Theorem filter_events_spec events event_type step_key :
  let r := filter_events str_upper str_lower str_strip str_split_comma str_in
             events event_type step_key in
  r `sublist_of` events ∧
  (∀ e, e ∈ r ↔
        e ∈ events ∧
        (str_bool (or_empty event_type) →
         type_matches str_upper
           ((λ t, str_upper (str_strip t)) <$> str_split_comma (or_empty event_type)) e) ∧
        (str_bool (or_empty step_key) →
         step_matches str_lower str_in (or_empty step_key) e)) ∧
  r = _filter_events_by_type str_upper str_strip str_split_comma
        (_filter_events_by_step str_lower str_in events step_key) event_type.
Proof.
  unfold filter_events.
  destruct event_type as [[|a t]|], step_key as [[|b s]|]; simpl;
    rewrite ?foldl_append_filter; simpl.
  all: split_and!;
    [ first [ done | apply sublist_filter
            | etrans; [apply sublist_filter|apply sublist_filter] ]
    | intros e; rewrite ?list_elem_of_filter; naive_solver
    | rewrite ?list_filter_filter; try done;
      apply list_filter_iff; naive_solver ].
Qed.

Lemma str_length_app s1 s2 :
  String.length (s1 +:+ s2) = String.length s1 + String.length s2.
Proof. induction s1 as [|a s1 IH]; simpl; [done|]. by rewrite IH. Qed.

Lemma str_length_take n s : String.length (str_take n s) = n `min` String.length s.
Proof.
  revert s. induction n as [|n IH]; intros [|a s]; simpl; [done..|].
  by rewrite IH.
Qed.

Lemma str_length_repeat a n : String.length (str_repeat a n) = n.
Proof. induction n as [|n IH]; simpl; [done|]. by rewrite IH. Qed.

Lemma str_length_ljust n s : String.length (str_ljust n s) = n `max` String.length s.
Proof. unfold str_ljust. rewrite str_length_app, str_length_repeat. lia. Qed.

Variable json_dumps_events : string → list Event → string.

Lemma event_row_length e : String.length (event_row e) = 123.
Proof.
  unfold event_row.
  rewrite !str_length_app, !str_length_ljust, !str_length_take.
  cbn [String.length]. lia.
Qed.

(** What [format_run_events] returns. With [as_json] it is the JSON text,
    and without events the line that says so. Otherwise it is the join by
    newlines of a title, an empty string, a header, a separator, one row per
    event in the order of the events, an empty string and the total. The
    table is rectangular: whatever the lengths of the fields of an event,
    missing fields included, its row has exactly 123 characters, as have the
    header and the separator. *)
Theorem run_events_table_shape event events run_id :
  let format := format_run_events str_of_nat json_dumps_events in
  format (event :: events) true run_id = json_dumps_events run_id (event :: events) ∧
  format [] true run_id = json_dumps_events run_id [] ∧
  format [] false run_id = "No events found for run " +:+ run_id ∧
  ∃ header separator,
    format (event :: events) false run_id =
    String.concat nl
      ([ "Events for run " +:+ run_id +:+ ":"; ""; header; separator ]
       ++ (event_row <$> event :: events)
       ++ [ ""; "Total events: " +:+ str_of_nat (length (event :: events)) ]) ∧
    String.length header = 123 ∧
    String.length separator = 123 ∧
    Forall (λ row, String.length row = 123) (event_row <$> event :: events).
Proof.
  intros format. split_and!; [done..|].
  eexists _, _. split; [reflexivity|]. split_and!.
  - vm_compute. reflexivity.
  - vm_compute. reflexivity.
  - apply Forall_fmap, Forall_forall. intros e _. apply event_row_length.
Qed.

End RunEventsTheorems.

(** * Deployments *)

Section ListDeploymentsTheorems.
Context {DeploymentType : Type}.
Variable DeploymentType_member : string → option DeploymentType.

Lemma to_deployments_length data ds :
  to_deployments DeploymentType_member data = inr ds → length ds = length data.
Proof.
  revert ds. induction data as [|d data IH]; intros ds; simpl.
  { by intros [= <-]. }
  destruct (DeploymentType_member _); [|done].
  destruct (to_deployments _ data) as [e|ds']; [done|].
  intros [= <-]. simpl. by rewrite (IH ds').
Qed.

(** When every item has a known type: the call returns, [total] is the
    number of items returned (not the number of deployments there are), and
    the items are a prefix of all deployments, in their order: all of them
    without a limit or with the limit 0, the first [limit] of them for a
    positive limit, and all but the last [-limit] for a negative one. *)
Theorem list_deployments_limit data limit ds :
  to_deployments DeploymentType_member data = inr ds →
  ∃ r, list_deployments_via_graphql DeploymentType_member data limit = inr r ∧
       Deployments.total r = length (Deployments.items r) ∧
       Deployments.items r `prefix_of` ds ∧
       length ds = length data ∧
       Deployments.items r =
       match limit with
       | None => ds
       | Some l =>
           if decide (l = 0)%Z then ds
           else if decide (0 < l)%Z then take (Z.to_nat l) ds
                else take (length ds - Z.to_nat (- l)) ds
       end.
Proof.
  intros Hds. unfold list_deployments_via_graphql. rewrite Hds.
  eexists. split; [done|]. simpl. split; [done|].
  split_and!.
  - destruct limit as [l|]; [|done]. case_decide; [done|].
    unfold slice_to. destruct (l <? 0)%Z; apply prefix_take.
  - by apply to_deployments_length.
  - destruct limit as [l|]; [|done]. case_decide; [done|].
    unfold slice_to. case_decide.
    + by rewrite (proj2 (Z.ltb_ge l 0)) by lia.
    + rewrite (proj2 (Z.ltb_lt l 0)) by lia. f_equal. lia.
Qed.

(** The call raises the [KeyError] exactly when some item, anywhere in the
    data, has a type that is no member of the enumeration: the limit is
    applied after all items have been converted, so an item beyond the limit
    makes the call fail all the same. The name reported is that of the first
    such item. *)
Theorem list_deployments_key_error data limit :
  (∀ name, list_deployments_via_graphql DeploymentType_member data limit = inl name ↔
           ∃ before d after,
             data = before ++ d :: after ∧
             Deployments.deploymentType d = name ∧
             DeploymentType_member name = None ∧
             Forall (λ d', is_Some (DeploymentType_member (Deployments.deploymentType d')))
               before) ∧
  ((∃ name, list_deployments_via_graphql DeploymentType_member data limit = inl name) ↔
   ∃ d, d ∈ data ∧ DeploymentType_member (Deployments.deploymentType d) = None).
Proof.
  assert (∀ name, to_deployments DeploymentType_member data = inl name ↔
           ∃ before d after,
             data = before ++ d :: after ∧
             Deployments.deploymentType d = name ∧
             DeploymentType_member name = None ∧
             Forall (λ d', is_Some (DeploymentType_member (Deployments.deploymentType d')))
               before) as Hfirst.
  { induction data as [|d data IH]; intros name; simpl.
    { split; [done|]. intros (before & d & after & Heq & _). by destruct before. }
    destruct (DeploymentType_member (Deployments.deploymentType d)) as [ty|] eqn:Hd.
    - destruct (to_deployments _ data) as [e|ds] eqn:Hrest.
      + split.
        * intros [= ->]. destruct (proj1 (IH name) eq_refl)
            as (before & d' & after & -> & Hn & Hnone & Hall).
          exists (d :: before), d', after. split_and!; [done..|].
          constructor; [by rewrite Hd|done].
        * intros (before & d' & after & Heq & Hn & Hnone & Hall).
          destruct before as [|d0 before];
            [by exfalso; simplify_eq/=; congruence|simplify_eq/=].
          apply Forall_cons in Hall as [_ Hall].
          apply (proj2 (IH _)). by exists before, d', after.
      + split; [done|].
        intros (before & d' & after & Heq & Hn & Hnone & Hall).
        destruct before as [|d0 before];
          [by exfalso; simplify_eq/=; congruence|simplify_eq/=].
        apply Forall_cons in Hall as [_ Hall].
        assert (@inr string _ ds = inl (Deployments.deploymentType d')) as Habs.
        { apply (proj2 (IH _)). by exists before, d', after. }
        done.
    - split.
      + intros [= <-]. exists [], d, data. by split_and!.
      + intros (before & d' & after & Heq & Hn & Hnone & Hall).
        destruct before as [|d0 before]; [by simplify_eq/=|simplify_eq/=].
        apply Forall_cons in Hall as [[ty Hty] _]. by rewrite Hd in Hty. }
  assert (∀ name, list_deployments_via_graphql DeploymentType_member data limit = inl name
                  ↔ to_deployments DeploymentType_member data = inl name) as Hsame.
  { intros name. unfold list_deployments_via_graphql.
    destruct (to_deployments _ data); [split; by intros [= ->]|by split]. }
  split.
  - intros name. by rewrite Hsame.
  - split.
    + intros [name Hname]. apply Hsame, Hfirst in Hname
        as (before & d & after & -> & <- & Hnone & _).
      exists d. split; [|done]. apply elem_of_app. right. by left.
    + intros [d [Hin Hnone]].
      destruct (to_deployments DeploymentType_member data) as [name|ds] eqn:Hto.
      * exists name. by apply Hsame.
      * exfalso. clear Hfirst Hsame. revert ds Hto.
        induction data as [|d0 data IH]; intros ds Hto; [by apply elem_of_nil in Hin|].
        simpl in Hto.
        destruct (DeploymentType_member (Deployments.deploymentType d0)) eqn:Hd0;
          [|done].
        destruct (to_deployments _ data) as [e|ds'] eqn:Hrest; [done|].
        apply elem_of_cons in Hin as [->|Hin]; [by rewrite Hd0 in Hnone|].
        by apply (IH Hin ds').
Qed.

End ListDeploymentsTheorems.

(** * The schema file, the inspection and the deployments at the examples *)

Lemma generate_schema_default_witness :
  node_at (fs ex_world_project) (root_path ex_context) = Some Dir ∧
  (∀ b, fs ex_world_project !! [ "proj"; ".dg" ] ≠ Some (File b)) ∧
  fs ex_world_project !! [ "proj"; ".dg"; "schema.json" ] ≠ Some Dir ∧
  ∃ w', _generate_component_schema ex_context None ex_world_project
        = (inr [ "proj"; ".dg"; "schema.json" ], w') ∧
        fs w' !! [ "proj"; ".dg" ] = Some Dir ∧
        fs w' !! [ "proj"; ".dg"; "schema.json" ] = Some (File [x7b; x7d]) ∧
        (∀ p, p ≠ [ "proj"; ".dg" ] → p ≠ [ "proj"; ".dg"; "schema.json" ] →
              fs w' !! p = fs ex_world_project !! p) ∧
        kvs w' = kvs ex_world_project ∧
        _generate_component_schema ex_context None w'
        = (inr [ "proj"; ".dg"; "schema.json" ], w').
Proof.
  assert (node_at (fs ex_world_project) (root_path ex_context) = Some Dir) as Hroot
    by (vm_compute; reflexivity).
  assert (∀ b, fs ex_world_project !! [ "proj"; ".dg" ] ≠ Some (File b)) as Hfolder
    by (intros b; vm_compute; discriminate).
  assert (fs ex_world_project !! [ "proj"; ".dg"; "schema.json" ] ≠ Some Dir) as Hfile
    by (vm_compute; discriminate).
  split_and!; [exact Hroot|exact Hfolder|exact Hfile|].
  exact (generate_schema_default ex_context ex_world_project Hroot Hfolder Hfile).
Defined.

Lemma inspect_output_shape_witness :
  ex_from_typename "foo.Bar" = inr "foo.Bar" ∧
  ex_registry "foo.Bar"
  = Some {| EntrySnap.description := Some "A bar.";
            EntrySnap.scaffolder_schema := Some [];
            EntrySnap.component_schema := Some ["type"] |} ∧
  (∃ line, ex_inspect "foo.Bar" false true false = inr [line]) ∧
  ∃ sections,
    ex_inspect "foo.Bar" false false false = inr ("foo.Bar" :: sections) ∧
    length sections = 4.
Proof.
  assert (ex_from_typename "foo.Bar" = inr "foo.Bar") as Hkey
    by (vm_compute; reflexivity).
  assert (ex_registry "foo.Bar"
          = Some {| EntrySnap.description := Some "A bar.";
                    EntrySnap.scaffolder_schema := Some [];
                    EntrySnap.component_schema := Some ["type"] |}) as Hentry
    by (vm_compute; reflexivity).
  split; [exact Hkey|]. split; [exact Hentry|]. split.
  - exact (proj1 (inspect_output_shape ex_from_typename
                    (λ s, "No registry object " +:+ s)
                    (λ schema, bool_decide (schema ≠ [])) (String.concat ",")
                    ex_registry "foo.Bar" _ _ false true false Hkey Hentry) eq_refl).
  - destruct (proj2 (inspect_output_shape ex_from_typename
                       (λ s, "No registry object " +:+ s)
                       (λ schema, bool_decide (schema ≠ [])) (String.concat ",")
                       ex_registry "foo.Bar" _ _ false false false Hkey Hentry)
                eq_refl)
      as (sections & Hrun & Hlen).
    exists sections. split; [exact Hrun|exact Hlen].
Defined.

(** A string that is no type name: the command ends with the exception of
    [from_typename], whatever the registry holds. *)
Example inspect_no_type_name :
  ex_inspect "Bar" false false false
  = inl (uncaught (ValueError "Invalid type name: Bar")).
Proof. vm_compute. reflexivity. Qed.

Lemma list_deployments_limit_witness :
  to_deployments ex_member ex_deployments = inr ex_deployments_converted ∧
  ∃ r, list_deployments_via_graphql ex_member ex_deployments (Some 2%Z) = inr r ∧
       Deployments.total r = length (Deployments.items r) ∧
       Deployments.items r `prefix_of` ex_deployments_converted ∧
       length ex_deployments_converted = length ex_deployments ∧
       Deployments.items r = take 2 ex_deployments_converted.
Proof.
  assert (to_deployments ex_member ex_deployments = inr ex_deployments_converted)
    as Hds by (vm_compute; reflexivity).
  split; [exact Hds|].
  exact (list_deployments_limit ex_member ex_deployments (Some 2%Z)
           ex_deployments_converted Hds).
Defined.
